(** * mitene_download: a shallow embedding of [mitene_download.py]

    The script enumerates the pages of a web album, builds one download
    coroutine per media file and runs the coroutines under a semaphore.
    The embedding keeps the shape of the source:

    - Python strings and byte strings are [string]s (8-bit characters);
    - the destination directory is a finite map from paths to contents,
      with POSIX [rename] (the target is replaced in one step);
    - every statement that touches the outside world (file system, HTTP
      session, standard streams) is one [effect]; a function of the script
      is a tree of effects ([prog]) that can be run to the end ([exec]) or
      cut after a number of effects ([interrupted]);
    - the event loop is a step relation that interleaves the coroutines
      one effect at a time ([Sched], [Run]). *)

From Stdlib Require Import Ascii.
From stdpp Require Import base strings list gmap pretty.

(** ** Python string methods used by the script *)

Module Str.

(** [s.startswith(pre)] *)
Definition startswith (pre s : string) : bool := String.prefix pre s.

(** [sub in s] *)
Fixpoint contains (sub s : string) : bool :=
  startswith sub s ||
  match s with
  | EmptyString => false
  | String _ s' => contains sub s'
  end.

(** [s.endswith(suf)] *)
Fixpoint endswith (suf s : string) : bool :=
  String.eqb s suf ||
  match s with
  | EmptyString => false
  | String _ s' => endswith suf s'
  end.

(** [s.split(sep)] for a non-empty [sep]: the pieces between the
    occurrences of [sep], scanned from the left without overlap.  [skip]
    counts the characters of a separator that are still to be dropped. *)
Fixpoint split_go (sep : string) (skip : nat) (s : string) : list string :=
  match s with
  | EmptyString => [""]
  | String c s' =>
      match skip with
      | S k => split_go sep k s'
      | O =>
          if startswith sep s
          then "" :: split_go sep (String.length sep - 1) s'
          else match split_go sep 0 s' with
               | piece :: pieces => String c piece :: pieces
               | [] => [String c ""]
               end
      end
  end.

Definition split (sep s : string) : list string := split_go sep 0 s.

(** [sep.join(pieces)] *)
Fixpoint join (sep : string) (pieces : list string) : string :=
  match pieces with
  | [] => ""
  | [piece] => piece
  | piece :: rest => piece +:+ sep +:+ join sep rest
  end.

(** [s.replace(old, new)] for a non-empty [old] *)
Definition replace (old new s : string) : string := join new (split old s).

(** [s.rfind(c)] for a one-character [c]; [None] stands for [-1]. *)
Fixpoint rfind_go (c : ascii) (i : nat) (found : option nat) (s : string)
  : option nat :=
  match s with
  | EmptyString => found
  | String a s' =>
      rfind_go c (S i) (if Ascii.eqb a c then Some i else found) s'
  end.

Definition rfind (c : ascii) (s : string) : option nat := rfind_go c 0 None s.

(** [s[:n]] and [s[n:]] *)
Definition take (n : nat) (s : string) : string := String.substring 0 n s.
Definition drop (n : nat) (s : string) : string :=
  String.substring n (String.length s - n) s.

(** Concatenation of a list of chunks. *)
Definition concat (chunks : list string) : string := join "" chunks.

End Str.

(** ** [posixpath]: the [os.path] functions of the script on POSIX *)

Module posixpath.

(** The loop of [genericpath._splitext] that looks for a character other
    than a dot between the last separator and the last dot. *)
Fixpoint has_non_dot (p : string) (filenameIndex n : nat) : bool :=
  match n with
  | O => false
  | S n' =>
      match String.get filenameIndex p with
      | Some c =>
          if Ascii.eqb c "."%char
          then has_non_dot p (S filenameIndex) n'
          else true
      | None => true
      end
  end.

(** [os.path.splitext(p)] *)
Definition splitext (p : string) : string * string :=
  let sepIndex := Str.rfind "/"%char p in
  match Str.rfind "."%char p with
  | None => (p, "")
  | Some dotIndex =>
      let filenameIndex :=
        match sepIndex with None => 0 | Some i => S i end in
      if bool_decide (filenameIndex ≤ dotIndex)
         && has_non_dot p filenameIndex (dotIndex - filenameIndex)
      then (Str.take dotIndex p, Str.drop dotIndex p)
      else (p, "")
  end.

(** [os.path.join(a, b)] *)
Definition join (a b : string) : string :=
  if Str.startswith "/" b then b
  else if String.eqb a "" || Str.endswith "/" a then a +:+ b
  else a +:+ "/" +:+ b.

End posixpath.

(** ** Data model *)

(** One entry of [media["comments"]]: [comment["user"]["nickname"]],
    [comment["body"]] and [comment["isDeleted"]]. *)
Record comment := {
  nickname : string;
  body : string;
  isDeleted : bool
}.

(** One entry of [data["mediaFiles"]], with the keys the script reads.
    [expiringVideoUrl] is the only key read with [dict.get]. *)
Record media := {
  uuid : string;
  tookAt : string;
  contentType : string;
  expiringUrl : string;
  expiringVideoUrl : option string;
  comments : list comment
}.

(** The parsed command line. *)
Record args := {
  album_url : string;
  destination_directory : string;
  password : option string;
  verbose : bool
}.

(** Python exceptions that the modelled code can raise. *)
Inductive exn :=
| SystemExit (code : nat)
| TypeError
| IndexError
| AssertionError
| ValueError
| FileNotFoundError
| ClientConnectionError
| ClientPayloadError
| ClientResponseError (status : nat).

(** ** The outside world *)

Inductive request :=
| GET (url : string)
| POST (url : string) (data : list (string * string)).

(** What the script reads of an [aiohttp.ClientResponse]: the path of the
    final URL, the status, the body as the chunks [iter_chunked] yields,
    and whether the body arrives whole. *)
Record response := {
  r_url_path : string;
  r_status : nat;
  r_chunks : list string;
  r_complete : bool
}.

(** The remote end: its answer to a request may depend on every request sent
    before it.  [None] is a request that fails to connect. *)
Definition server := list request → request → option response.

(** The destination directory with its files, the requests sent so far (oldest
    first) and the two output streams. *)
Record world := {
  fs : gmap string string;
  sent : list request;
  stdout : list string;
  stderr : list string
}.

Definition set_fs (f : gmap string string → gmap string string) (w : world)
  : world :=
  {| fs := f (fs w); sent := sent w; stdout := stdout w; stderr := stderr w |}.

(** [glob.has_magic(s)]: [s] holds one of the characters that [glob] reads
    as a pattern. *)
Definition has_magic (s : string) : bool :=
  Str.contains "*" s || Str.contains "?" s || Str.contains "[" s.

(** [glob.glob(pattern)] for the pattern that the script builds,
    [os.path.join(args.destination_directory, "*.tmp")], when the directory
    has no magic character: the directory is then taken literally, and the
    star of the last component stands for any run of characters without a
    slash and does not match a leading dot of a file name.  A directory with
    a magic character lies outside this definition ([glob] would match it
    against the names of the directories that exist); what is proved about
    the files that are swept assumes [has_magic] to be false of it. *)
Definition glob_match (pattern p : string) : bool :=
  match Str.split "*" pattern with
  | [pre; post] =>
      Str.startswith pre p &&
      let name := Str.drop (String.length pre) p in
      Str.endswith post name &&
      bool_decide (String.length post ≤ String.length name) &&
      negb (Str.contains "/" name) &&
      negb (Str.startswith "." name)
  | _ => false
  end.

(** ** Effects, programs and their execution *)

(** The statements of the script that act on the world, indexed by the type
    of what they evaluate to. *)
Inductive effect : Type → Type :=
| os_path_exists (p : string) : effect bool
| os_makedirs (p : string) : effect unit
| glob_glob (pattern : string) : effect (list string)
| os_unlink (p : string) : effect unit
| open_w (p : string) : effect unit
| f_write (p : string) (data : string) : effect unit
| os_rename (src dst : string) : effect unit
| print (line : string) : effect unit
| print_stderr (line : string) : effect unit
| session_get (url : string) : effect response
| session_post (url : string) (data : list (string * string)) : effect response.

(** Sending a request: it is logged, then answered by the server. *)
Definition add_sent (rq : request) (w : world) : world :=
  {| fs := fs w; sent := sent w ++ [rq];
     stdout := stdout w; stderr := stderr w |}.

Definition send (srv : server) (rq : request) (w : world)
  : (exn + response) * world :=
  match srv (sent w) rq with
  | Some r => (inr r, add_sent rq w)
  | None => (inl ClientConnectionError, add_sent rq w)
  end.

(** One effect on the world.  Opening a file for writing creates or empties
    it; a write appends; [os.rename] replaces the target and fails when the
    source is missing, as [os.unlink] does. *)
Definition perform {X} (srv : server) (op : effect X) (w : world)
  : (exn + X) * world :=
  match op in effect X return (exn + X) * world with
  | os_path_exists p => (inr (bool_decide (is_Some (fs w !! p))), w)
  | os_makedirs _ => (inr (), w)
  | glob_glob pattern =>
      (inr (filter (λ p, glob_match pattern p = true)
                   (map_to_list (fs w)).*1), w)
  | os_unlink p =>
      match fs w !! p with
      | Some _ => (inr (), set_fs (delete p) w)
      | None => (inl FileNotFoundError, w)
      end
  | open_w p => (inr (), set_fs (insert p "") w)
  | f_write p data =>
      (inr (), set_fs (λ m, <[p := default "" (m !! p) +:+ data]> m) w)
  | os_rename src dst =>
      match fs w !! src with
      | Some content => (inr (), set_fs (λ m, <[dst := content]> (delete src m)) w)
      | None => (inl FileNotFoundError, w)
      end
  | print line =>
      (inr (), {| fs := fs w; sent := sent w;
                  stdout := stdout w ++ [line]; stderr := stderr w |})
  | print_stderr line =>
      (inr (), {| fs := fs w; sent := sent w;
                  stdout := stdout w; stderr := stderr w ++ [line] |})
  | session_get url => send srv (GET url) w
  | session_post url data => send srv (POST url data) w
  end.

(** A function of the script: it returns, raises, performs an effect and goes
    on with its result, or ([Spin]) is a [while True] loop that was given too
    little fuel. *)
Inductive prog (A : Type) : Type :=
| Ret (a : A)
| Raise (e : exn)
| Spin
| Do {X : Type} (op : effect X) (k : X → prog A).
Arguments Ret {A} a.
Arguments Raise {A} e.
Arguments Spin {A}.
Arguments Do {A X} op k.

Fixpoint bind {A B} (p : prog A) (f : A → prog B) : prog B :=
  match p with
  | Ret a => f a
  | Raise e => Raise e
  | Spin => Spin
  | Do op k => Do op (λ x, bind (k x) f)
  end.

Definition perform_ {X} (op : effect X) : prog X := Do op Ret.

Declare Scope prog_scope.
Notation "x ← p ; q" := (bind p (λ x, q))
  (at level 20, p at level 100, q at level 200, only parsing) : prog_scope.
Notation "p ;; q" := (bind p (λ _, q))
  (at level 100, q at level 200, right associativity, only parsing) : prog_scope.
Delimit Scope prog_scope with prog.
Bind Scope prog_scope with prog.

(** How a program ends. *)
Inductive outcome (A : Type) : Type :=
| Returned (a : A)
| Raised (e : exn)
| Unfinished.
Arguments Returned {A} a.
Arguments Raised {A} e.
Arguments Unfinished {A}.

(** Running a program to its end. *)
Fixpoint exec {A} (srv : server) (p : prog A) (w : world) : outcome A * world :=
  match p with
  | Ret a => (Returned a, w)
  | Raise e => (Raised e, w)
  | Spin => (Unfinished, w)
  | Do op k =>
      match perform srv op w with
      | (inr x, w') => exec srv (k x) w'
      | (inl e, w') => (Raised e, w')
      end
  end.

(** The world that a run leaves behind when the process is killed after [n]
    effects (or ends before that). *)
Fixpoint interrupted {A} (srv : server) (n : nat) (p : prog A) (w : world)
  : world :=
  match n, p with
  | S n', Do op k =>
      match perform srv op w with
      | (inr x, w') => interrupted srv n' (k x) w'
      | (inl _, w') => w'
      end
  | _, _ => w
  end.

(** ** Library functions the script calls *)

(** What [json.loads] gives for a page listing, restricted to the key the
    script reads. *)
Record page_data := { mediaFiles : list media }.

(** The functions of the Python library whose results the script only passes
    on.  [os.path] is [posixpath] or [ntpath]; [urlparse_path url] is
    [urllib.parse.urlparse(url).path]; [json_loads] is [None] where
    [json.loads] raises. *)
Class Lib := {
  os_path_splitext : string → string * string;
  os_path_join : string → string → string;
  platform_system : string;
  urlparse_path : string → string;
  guess_extension : string → option string;
  json_loads : string → option page_data
}.

(** ** [save_comments] and [download_media] *)

Definition newline : string := String "010"%char "".

(** The text written for one comment:
    [f'**{comment["user"]["nickname"]}**: {comment["body"]}\n\n']. *)
Definition comment_block (c : comment) : string :=
  "**" +:+ nickname c +:+ "**: " +:+ body c +:+ newline +:+ newline.

(** The loop of [save_comments] over the comments, writing to the open
    file [f]. *)
Fixpoint write_comments (f : string) (cs : list comment) : prog unit :=
  match cs with
  | [] => Ret ()
  | c :: rest =>
      (if negb (isDeleted c)
       then perform_ (f_write f (comment_block c))
       else Ret ());;
      write_comments f rest
  end%prog.

Definition comment_filename `{Lib} (destination_filename : string) : string :=
  (os_path_splitext destination_filename).1 +:+ ".md".

Definition save_comments `{Lib} (destination_filename : string)
    (cs : list comment) : prog unit :=
  (let comment_filename := comment_filename destination_filename in
   perform_ (open_w (comment_filename +:+ ".tmp"));;
   write_comments (comment_filename +:+ ".tmp") cs;;
   perform_ (os_rename (comment_filename +:+ ".tmp") comment_filename))%prog.

(** [r.raise_for_status()] *)
Definition raise_for_status (r : response) : prog unit :=
  if bool_decide (400 ≤ r_status r)
  then Raise (ClientResponseError (r_status r))
  else Ret ().

(** [async for chunk in r.content.iter_chunked(1024): f.write(chunk)] *)
Fixpoint write_chunks (f : string) (chunks : list string) : prog unit :=
  match chunks with
  | [] => Ret ()
  | chunk :: rest => (perform_ (f_write f chunk);; write_chunks f rest)%prog
  end.

Definition iter_chunked_into (f : string) (r : response) : prog unit :=
  (write_chunks f (r_chunks r);;
   if r_complete r then Ret () else Raise ClientPayloadError)%prog.

(** The [with] block of [download_media] and the rename after it. *)
Definition write_media (url destination_filename : string) : prog unit :=
  (perform_ (open_w (destination_filename +:+ ".tmp"));;
   r ← perform_ (session_get url);
   raise_for_status r;;
   iter_chunked_into (destination_filename +:+ ".tmp") r;;
   perform_ (os_rename (destination_filename +:+ ".tmp") destination_filename))%prog.

Definition download_media `{Lib} (url destination_filename : string)
    (m : media) (verbose : bool) : prog unit :=
  (present ← perform_ (os_path_exists destination_filename);
   if negb present then
     (if verbose
      then perform_ (print ("Downloading " +:+ uuid m +:+ " ⏳"))
      else Ret ());;
     write_media url destination_filename;;
     match comments m with
     | _ :: _ => save_comments destination_filename (comments m)
     | [] => Ret ()
     end
   else if verbose
   then perform_ (print (uuid m +:+ " already downloaded ✔️"))
   else Ret ())%prog.

(** ** [async_main] up to the call of [gather_with_concurrency] *)

(** The arguments of one [download_media(...)] coroutine object. *)
Record coroutine := {
  c_url : string;
  c_destination_filename : string;
  c_media : media;
  c_verbose : bool
}.

Definition run_coroutine `{Lib} (c : coroutine) : prog unit :=
  download_media (c_url c) (c_destination_filename c) (c_media c) (c_verbose c).

Definition dquote : string := String "034"%char "".

Definition challenge_marker : string := "Please enter your password".

Definition token_marker : string :=
  "name=" +:+ dquote +:+ "authenticity_token" +:+ dquote +:+ " value=" +:+ dquote.

Definition listing_start : string :=
  "//<![CDATA[" +:+ newline +:+ "window.gon={};gon.media=".

Definition listing_end : string := ";gon.familyUserIdToColorMap=".

Definition missing_password_message : string :=
  "Album is password protected, please specify password with --password".

Definition login_failed_message : string :=
  "Could not authenticate, maybe password is incorrect".

(** [await r.text()] *)
Definition text (r : response) : prog string :=
  if r_complete r then Ret (Str.concat (r_chunks r)) else Raise ClientPayloadError.

(** [bool(args.password)]: an empty password counts as none. *)
Definition password_given (a : args) : bool :=
  match password a with
  | Some pw => negb (String.eqb pw "")
  | None => false
  end.

(** The URLs the script requests. *)
Definition page_url (a : args) (page : nat) : string :=
  album_url a +:+ "?page=" +:+ pretty page.
Definition login_url (a : args) : string := album_url a +:+ "/login".
Definition download_url (a : args) (m : media) : string :=
  album_url a +:+ "/media_files/" +:+ uuid m +:+ "/download".

(** A computation without effects that may raise, as a program. *)
Definition lift {A} (x : exn + A) : prog A :=
  match x with
  | inr a => Ret a
  | inl e => Raise e
  end.

(** Lines 127-132: the file name of a media file, before an extension is
    looked for. *)
Definition media_filename `{Lib} (m : media) : string :=
  let filename :=
    default "" (last (Str.split "/"
      (urlparse_path (default (expiringUrl m) (expiringVideoUrl m))))) in
  let filename := tookAt m +:+ "-" +:+ filename in
  if String.eqb platform_system "Windows"
  then Str.replace ":" "" filename
  else filename.

(** Lines 127-138: the destination of one media file.  Adding the result of
    [guess_extension] to the name raises [TypeError] when it is [None]. *)
Definition destination_filename `{Lib} (a : args) (m : media) : exn + string :=
  let filename := media_filename m in
  if String.eqb (os_path_splitext filename).2 ""
  then match guess_extension (contentType m) with
       | Some ext =>
           inr (os_path_join (destination_directory a) (filename +:+ ext))
       | None => inl TypeError
       end
  else inr (os_path_join (destination_directory a) filename).

(** The [for media in data["mediaFiles"]] loop. *)
Fixpoint append_coroutines `{Lib} (a : args) (ms : list media)
    (download_coroutines : list coroutine) : exn + list coroutine :=
  match ms with
  | [] => inr download_coroutines
  | m :: rest =>
      match destination_filename a m with
      | inr d =>
          append_coroutines a rest
            (download_coroutines ++
             [{| c_url := download_url a m; c_destination_filename := d;
                 c_media := m; c_verbose := verbose a |}])
      | inl e => inl e
      end
  end.

(** Lines 102-105: the token of the login form. *)
Definition authenticity_token_of (response_text : string) : exn + string :=
  match Str.split token_marker response_text !! 1 with
  | None => inl IndexError
  | Some piece =>
      match Str.split dquote piece !! 0 with
      | None => inl IndexError
      | Some authenticity_token =>
          if String.eqb authenticity_token ""
          then inl AssertionError
          else inr authenticity_token
      end
  end.

(** Lines 118-121: the listing embedded in a page. *)
Definition listing_of `{Lib} (response_text : string) : exn + page_data :=
  match Str.split listing_start response_text !! 1 with
  | None => inl IndexError
  | Some piece =>
      match Str.split listing_end piece !! 0 with
      | None => inl IndexError
      | Some page_text =>
          match json_loads page_text with
          | Some data => inr data
          | None => inl ValueError
          end
      end
  end.

(** The [while True] loop, with [fuel] iterations at most. *)
Fixpoint enumerate `{Lib} (fuel : nat) (a : args) (page : nat)
    (download_coroutines : list coroutine) : prog (list coroutine) :=
  match fuel with
  | O => Spin
  | S fuel' =>
      (r ← perform_ (session_get (page_url a page));
       response_text ← text r;
       if bool_decide (page = 1) && Str.contains challenge_marker response_text
       then
         if negb (password_given a)
         then perform_ (print_stderr missing_password_message);;
              Raise (SystemExit 1)
         else
           authenticity_token ← lift (authenticity_token_of response_text);
           r ← perform_ (session_post (login_url a)
                  [("session[password]", default "" (password a));
                   ("authenticity_token", authenticity_token)]);
           if Str.endswith "/login" (r_url_path r)
           then perform_ (print_stderr login_failed_message);;
                Raise (SystemExit 1)
           else enumerate fuel' a page download_coroutines
       else
         data ← lift (listing_of response_text);
         match mediaFiles data with
         | [] => Ret download_coroutines
         | _ :: _ =>
             download_coroutines ←
               lift (append_coroutines a (mediaFiles data) download_coroutines);
             enumerate fuel' a (page + 1) download_coroutines
         end)%prog
  end.

(** Lines 82-85: the destination directory and the stale [*.tmp] files. *)
Fixpoint unlink_all (files : list string) : prog unit :=
  match files with
  | [] => Ret ()
  | f :: rest => (perform_ (os_unlink f);; unlink_all rest)%prog
  end.

Definition startup `{Lib} (a : args) : prog unit :=
  (perform_ (os_makedirs (destination_directory a));;
   tmp_files ← perform_ (glob_glob (os_path_join (destination_directory a) "*.tmp"));
   unlink_all tmp_files)%prog.

(** Everything [async_main] does before it awaits the downloads. *)
Definition collect `{Lib} (fuel : nat) (a : args) : prog (list coroutine) :=
  (startup a;; enumerate fuel a 1 [])%prog.

(** ** [gather_with_concurrency]: the coroutines under the event loop *)

Module Sched.

(** A [sem_task]: waiting at [async with semaphore], inside it with the
    rest of its coroutine still to run, or finished with its result. *)
Inductive task :=
| Waiting (p : prog unit)
| Running (p : prog unit)
| Done (r : option exn).

(** The value of the [asyncio.Semaphore], the tasks that [asyncio.gather]
    made of the [sem_task]s, the exception (if any) that [gather] has
    passed on to its caller, and the world the tasks share. *)
Record state := {
  permits : nat;
  tasks : list task;
  failure : option exn;
  now : world
}.

(** What the event loop may do next: let task [i] through the semaphore
    (any waiting task may be the one that is woken), or run task [i] up to
    its next effect. *)
Inductive label :=
| Acquire (i : nat)
| Resume (i : nat).

Definition is_running (t : task) : bool :=
  match t with Running _ => true | _ => false end.

Definition is_waiting (t : task) : bool :=
  match t with Waiting _ => true | _ => false end.

Definition is_done (t : task) : bool :=
  match t with Done _ => true | _ => false end.

(** The number of coroutines that are inside [async with semaphore]. *)
Definition active (ts : list task) : nat :=
  sum_list_with (λ t, if is_running t then 1 else 0) ts.

(** Task [i] leaves [async with semaphore] with result [r]: the semaphore
    is released; without [return_exceptions], [gather] hands the first
    exception to its caller as soon as it is raised. *)
Definition finish (i : nat) (r : option exn) (s : state) : state :=
  {| permits := S (permits s);
     tasks := <[i := Done r]> (tasks s);
     failure := match failure s with Some e => Some e | None => r end;
     now := now s |}.

Definition step (srv : server) (l : label) (s : state) : option state :=
  match l with
  | Acquire i =>
      match tasks s !! i, permits s with
      | Some (Waiting p), S k =>
          Some {| permits := k; tasks := <[i := Running p]> (tasks s);
                  failure := failure s; now := now s |}
      | _, _ => None
      end
  | Resume i =>
      match tasks s !! i with
      | Some (Running (Ret _)) => Some (finish i None s)
      | Some (Running (Raise e)) => Some (finish i (Some e) s)
      | Some (Running (Do op k)) =>
          let '(res, w') := perform srv op (now s) in
          Some {| permits := permits s;
                  tasks := <[i := Running (match res with
                                           | inr x => k x
                                           | inl e => Raise e
                                           end)]> (tasks s);
                  failure := failure s; now := w' |}
      | _ => None
      end
  end.

Fixpoint steps (srv : server) (ls : list label) (s : state) : option state :=
  match ls with
  | [] => Some s
  | l :: ls' =>
      match step srv l s with
      | Some s' => steps srv ls' s'
      | None => None
      end
  end.

(** [gather_with_concurrency(n, *tasks)] at the moment it awaits
    [asyncio.gather]. *)
Definition gather_with_concurrency (n : nat) (ps : list (prog unit))
    (w : world) : state :=
  {| permits := n; tasks := Waiting <$> ps; failure := None; now := w |}.

End Sched.

(** ** The whole run *)

Module Run.

(** The run is downloading, or the process has ended with an exit status,
    leaving the world and the tasks as they were at that moment. *)
Inductive state :=
| Downloading (s : Sched.state)
| Exited (status : nat) (w : world) (ts : list Sched.task).

(** The exit status of a process that ends with exception [e]. *)
Definition exit_status (e : exn) : nat :=
  match e with
  | SystemExit code => code
  | _ => 1
  end.

(** From the first statement of [async_main] to the [await] of
    [gather_with_concurrency(4, ...)].  [None]: not enough fuel for the
    page loop. *)
Definition launch `{Lib} (srv : server) (fuel : nat) (a : args) (w : world)
  : option state :=
  match exec srv (collect fuel a) w with
  | (Returned cs, w') =>
      Some (Downloading
              (Sched.gather_with_concurrency 4 (run_coroutine <$> cs) w'))
  | (Raised e, w') => Some (Exited (exit_status e) w' [])
  | (Unfinished, _) => None
  end.

(** The event loop runs a task, or resumes [async_main], which is possible
    once [gather] has a result: the first exception, or nothing left to
    wait for. *)
Inductive label :=
| Task (l : Sched.label)
| Main.

Definition step (srv : server) (l : label) (st : state) : option state :=
  match st, l with
  | Downloading s, Task l' => Downloading <$> Sched.step srv l' s
  | Downloading s, Main =>
      match Sched.failure s with
      | Some e => Some (Exited (exit_status e) (Sched.now s) (Sched.tasks s))
      | None =>
          if forallb Sched.is_done (Sched.tasks s)
          then Some (Exited 0 (Sched.now s) (Sched.tasks s))
          else None
      end
  | Exited _ _ _, _ => None
  end.

Fixpoint steps (srv : server) (ls : list label) (st : state) : option state :=
  match ls with
  | [] => Some st
  | l :: ls' =>
      match step srv l st with
      | Some st' => steps srv ls' st'
      | None => None
      end
  end.

End Run.

(** ** Test doubles *)

Module Stub.

Global Instance request_eq_dec : EqDecision request.
Proof. solve_decision. Defined.

(** The first value stored under [k]. *)
Fixpoint assoc {K V} `{EqDecision K} (k : K) (table : list (K * V))
  : option V :=
  match table with
  | [] => None
  | (k', v) :: rest => if decide (k' = k) then Some v else assoc k rest
  end.

(** A small [mimetypes] table. *)
Definition mime (content_type : string) : option string :=
  if String.eqb content_type "image/jpeg" then Some ".jpg"
  else if String.eqb content_type "video/mp4" then Some ".mp4"
  else None.

(** A POSIX host whose [json.loads] knows the listings of [table], and
    whose URLs are paths already. *)
Definition lib (table : list (string * page_data)) : Lib :=
  {| os_path_splitext := posixpath.splitext;
     os_path_join := posixpath.join;
     platform_system := "Linux";
     urlparse_path := id;
     guess_extension := mime;
     json_loads := λ s, assoc s table |}.

(** A server that answers from a table, whatever was sent before. *)
Definition serve (table : list (request * response)) : server :=
  λ _ rq, assoc rq table.

Definition ok (chunks : list string) : response :=
  {| r_url_path := "/"; r_status := 200; r_chunks := chunks;
     r_complete := true |}.

(** The markup around an embedded listing. *)
Definition page_of (listing : string) : response :=
  ok ["<script>" +:+ listing_start; listing +:+ listing_end +:+ "{}</script>"].

Definition login_page : response :=
  ok ["<form>" +:+ challenge_marker +:+ "<input " +:+ token_marker
      +:+ "tok123" +:+ dquote +:+ "></form>"].

Definition empty_world : world :=
  {| fs := ∅; sent := []; stdout := []; stderr := [] |}.

Definition photo (id : string) (cs : list comment) : media :=
  {| uuid := id; tookAt := "2021-05-01T10:00:00+09:00";
     contentType := "image/jpeg";
     expiringUrl := "/media/" +:+ id +:+ ".jpg";
     expiringVideoUrl := None; comments := cs |}.

Definition cli : args :=
  {| album_url := "https://mitene.us/f/abc"; destination_directory := "out";
     password := None; verbose := false |}.

End Stub.

(** * Vocabulary of the properties *)

(** [always P p w]: [P] holds of the world at every point where the run of
    [p] from [w] can be cut. *)
Definition always {A} (srv : server) (P : world → Prop) (p : prog A) (w : world) : Prop :=
  ∀ n, P (interrupted srv n p w).

(** The rendering of a comment list in the words of the specification: the
    blocks of the comments that are not deleted, in their order. *)
Definition rendered (cs : list comment) : string :=
  Str.concat (comment_block <$> filter (λ c, isDeleted c = false) cs).

(** Before the rename: the final path holds what it held in [w0], and no path
    but the temporary one differs from [w0]. *)
Definition uncommitted (tmp final : string) (w0 w : world) : Prop :=
  fs w !! final = fs w0 !! final ∧
  ∀ p, p ≠ tmp → fs w !! p = fs w0 !! p.

(** After the rename: the final path holds [content], the temporary file is
    gone, and no other path differs from [w0]. *)
Definition committed (tmp final content : string) (w0 w : world) : Prop :=
  fs w !! final = Some content ∧
  fs w !! tmp = None ∧
  ∀ p, p ≠ tmp → p ≠ final → fs w !! p = fs w0 !! p.

(** Writes to [tmp] change no other path. *)
Definition only_tmp (tmp : string) (w0 w : world) : Prop :=
  ∀ p, p ≠ tmp → fs w !! p = fs w0 !! p.

(** A response that [raise_for_status] accepts and whose body is whole. *)
Definition delivered (r : response) : Prop :=
  r_status r < 400 ∧ r_complete r = true.

Definition add_stdout (line : string) (w : world) : world :=
  {| fs := fs w; sent := sent w; stdout := stdout w ++ [line];
     stderr := stderr w |}.

(** C2 as the specification words it, for the comment file: cut anywhere,
    the run of [save_comments] leaves the final path absent or holding the
    whole rendering. *)
Definition absent_or_complete `{Lib} (srv : server)
    (destination_filename : string)
    (cs : list comment) (w : world) (n : nat) : Prop :=
  let w' := interrupted srv n (save_comments destination_filename cs) w in
  fs w' !! comment_filename destination_filename = None ∨
  fs w' !! comment_filename destination_filename = Some (rendered cs).

Definition extend_sent (rqs : list request) (w : world) : world :=
  {| fs := fs w; sent := sent w ++ rqs; stdout := stdout w; stderr := stderr w |}.

Definition add_stderr (line : string) (w : world) : world :=
  {| fs := fs w; sent := sent w; stdout := stdout w;
     stderr := stderr w ++ [line] |}.

(** The body of a response as [await r.text()] returns it. *)
Definition text_of (r : response) : string := Str.concat (r_chunks r).

(** A page fetcher stub: whatever was sent before, the server answers the
    request for page [i], for [i] from 1 to [upto], with a complete page
    whose embedded listing is [pages i]; page 1 does not show the password
    challenge. *)
Definition stub_pages `{Lib} (srv : server) (a : args)
    (pages : nat → list media) (upto : nat) : Prop :=
  ∀ i log, 1 ≤ i ≤ upto →
    ∃ r, srv log (GET (page_url a i)) = Some r ∧
         r_complete r = true ∧
         (i = 1 → Str.contains challenge_marker (text_of r) = false) ∧
         listing_of (text_of r) = inr {| mediaFiles := pages i |}.

(** The items of pages [i], [i+1], ..., [i+n-1], in page order. *)
Definition items_of (pages : nat → list media) (i n : nat) : list media :=
  mjoin (pages <$> seq i n).

(** The coroutine object that the script builds for media [m]; none when the
    destination name cannot be built. *)
Definition coroutine_of `{Lib} (a : args) (m : media) : option coroutine :=
  match destination_filename a m with
  | inr d => Some {| c_url := download_url a m; c_destination_filename := d;
                     c_media := m; c_verbose := verbose a |}
  | inl _ => None
  end.

(** The destination name of [m] can be built: its file name has an extension
    or its content type has one. *)
Definition named `{Lib} (a : args) (m : media) : Prop :=
  is_Some (coroutine_of a m).

(** What the first page looks like when the album asks for a password. *)
Definition challenged (srv : server) (a : args) (w : world) (r : response)
  : Prop :=
  srv (sent w) (GET (page_url a 1)) = Some r ∧
  r_complete r = true ∧
  Str.contains challenge_marker (text_of r) = true.

(** The task that a label is about. *)
Definition target (l : Sched.label) : nat :=
  match l with
  | Sched.Acquire i => i
  | Sched.Resume i => i
  end.

(** A program that never ends the process with status 0 by an exception. *)
Fixpoint never_exits {A} (p : prog A) : Prop :=
  match p with
  | Ret _ => True
  | Raise e => Run.exit_status e ≠ 0
  | Spin => True
  | Do op k => ∀ x, never_exits (k x)
  end.

(** What holds of a task of a run whose coroutines never exit: [failed] tells
    whether [gather] has an exception to pass on. *)
Definition task_ok (failed : Prop) (t : Sched.task) : Prop :=
  match t with
  | Sched.Waiting p | Sched.Running p => never_exits p
  | Sched.Done (Some e) => Run.exit_status e ≠ 0 ∧ failed
  | Sched.Done None => True
  end.

Definition sched_ok (s : Sched.state) : Prop :=
  Forall (task_ok (is_Some (Sched.failure s))) (Sched.tasks s) ∧
  ∀ e, Sched.failure s = Some e → Run.exit_status e ≠ 0.

(** C5 as the specification words it: a run reports its result only when
    every dispatched download has settled. *)
Definition exits_only_settled (srv : server) (st0 : Run.state) : Prop :=
  ∀ ls status w ts,
    Run.steps srv ls st0 = Some (Run.Exited status w ts) →
    Forall (λ t, Sched.is_done t = true) ts.

(** C3 as the specification words it: against the page fetcher, the page
    loop ends and the collected work list holds exactly the items of pages 1
    to [k], in page order. *)
Definition collects_pages `{Lib} (srv : server) (a : args)
    (pages : nat → list media) (k : nat) (w : world) : Prop :=
  ∃ fuel cs w',
    exec srv (collect fuel a) w = (Returned cs, w') ∧
    c_media <$> cs = items_of pages 1 k.

(** The result with which a coroutine that has run to its end leaves
    [async with semaphore]; none while it has an effect left. *)
Definition ended (p : prog unit) : option (option exn) :=
  match p with
  | Ret _ => Some None
  | Raise e => Some (Some e)
  | _ => None
  end.

(** ** Vocabulary of the further properties *)

(** A regular file directly in directory [dir]: its path is [dir], a slash
    and a name without a slash. *)
Definition in_directory (dir p : string) : bool :=
  Str.startswith (dir +:+ "/") p &&
  let name := Str.drop (String.length (dir +:+ "/")) p in
  negb (String.eqb name "") && negb (Str.contains "/" name).

(** The files of the world are regular files directly in [dir]: [dir] is
    no file itself and has no subdirectory. *)
Definition flat (dir : string) (w : world) : bool :=
  forallb (in_directory dir) (map_to_list (fs w)).*1.

(** The files after a write of [content] through [tmp] onto [final]. *)
Definition stored (tmp final content : string) (m : gmap string string)
  : gmap string string :=
  <[final := content]> (delete tmp m).

(** Why a download fails, if it does: no connection, a status that
    [raise_for_status] refuses, or a body that breaks off. *)
Definition download_failure (answer : option response) : option exn :=
  match answer with
  | None => Some ClientConnectionError
  | Some r =>
      if bool_decide (400 ≤ r_status r)
      then Some (ClientResponseError (r_status r))
      else if r_complete r then None else Some ClientPayloadError
  end.

(** What a failed download has written to the temporary file. *)
Definition received (answer : option response) : string :=
  match answer with
  | Some r => if bool_decide (400 ≤ r_status r) then "" else Str.concat (r_chunks r)
  | None => ""
  end.



(** The login request that the script posts with token [authenticity_token]. *)
Definition login_request (a : args) (authenticity_token : string) : request :=
  POST (login_url a)
    [("session[password]", default "" (password a));
     ("authenticity_token", authenticity_token)].

(** The server as it answers once the requests [before] have been sent. *)
Definition later (before : list request) (srv : server) : server :=
  λ log rq, srv (before ++ log) rq.

Definition prepend_sent (before : list request) (w : world) : world :=
  {| fs := fs w; sent := before ++ sent w; stdout := stdout w;
     stderr := stderr w |}.

(** A server that shows the password challenge (with token
    [authenticity_token]) on page 1 whatever was sent, and accepts every
    login. *)
Definition keeps_challenging (srv : server) (a : args)
    (authenticity_token : string) : Prop :=
  ∀ log,
    (∃ r, srv log (GET (page_url a 1)) = Some r ∧ r_complete r = true ∧
          Str.contains challenge_marker (text_of r) = true ∧
          authenticity_token_of (text_of r) = inr authenticity_token) ∧
    (∃ r', srv log (login_request a authenticity_token) = Some r' ∧
           Str.endswith "/login" (r_url_path r') = false).

(** An album behind a password: until the login request with token
    [authenticity_token] has been sent, page 1 shows the challenge with that
    token; the login is always accepted; after it, the pages are served as
    by a page fetcher stub. *)
Definition protected_album `{Lib} (srv : server) (a : args)
    (authenticity_token : string) (pages : nat → list media) (upto : nat)
  : Prop :=
  (∀ log, login_request a authenticity_token ∉ log →
     ∃ r, srv log (GET (page_url a 1)) = Some r ∧ r_complete r = true ∧
          Str.contains challenge_marker (text_of r) = true ∧
          authenticity_token_of (text_of r) = inr authenticity_token) ∧
  (∀ log, ∃ r', srv log (login_request a authenticity_token) = Some r' ∧
                Str.endswith "/login" (r_url_path r') = false) ∧
  (∀ log, login_request a authenticity_token ∈ log →
     stub_pages (later log srv) a pages upto).


(** ** Concrete albums *)

Module Album.

Definition hi : comment := {| nickname := "A"; body := "hi"; isDeleted := false |}.
Definition gone : comment := {| nickname := "B"; body := "x"; isDeleted := true |}.

Definition a : media := Stub.photo "a" [].
Definition b : media := Stub.photo "b" [hi; gone].
Definition c : media := Stub.photo "c" [gone].

(** An item whose URL has no extension and whose content type is not in the
    table. *)
Definition raw : media :=
  {| uuid := "raw"; tookAt := "2021-05-02T09:30:00+09:00";
     contentType := "application/x-unknown";
     expiringUrl := "/media/raw"; expiringVideoUrl := None; comments := [] |}.

Definition pages (i : nat) : list media :=
  match i with
  | 1 => [a; b]
  | _ => []
  end.

Definition raw_pages (i : nat) : list media :=
  match i with
  | 1 => [a; raw]
  | _ => []
  end.

Definition lib : Lib :=
  Stub.lib [("P1", {| mediaFiles := [a; b] |}); ("P2", {| mediaFiles := [] |});
            ("R1", {| mediaFiles := [a; raw] |})].

Definition cli : args := Stub.cli.
Definition secret_cli : args :=
  {| album_url := album_url Stub.cli;
     destination_directory := destination_directory Stub.cli;
     password := Some "secret"; verbose := false |}.

Definition download (m : media) : request := GET (download_url cli m).

Definition not_found : response :=
  {| r_url_path := "/"; r_status := 404; r_chunks := ["gone"];
     r_complete := true |}.

Definition still_login : response :=
  {| r_url_path := "/f/abc/login"; r_status := 200; r_chunks := [];
     r_complete := true |}.

Definition login_post (a : args) : request :=
  POST (login_url a)
    [("session[password]", default "" (password a));
     ("authenticity_token", "tok123")].

(** Every page and every download is served. *)
Definition healthy : server :=
  Stub.serve [(GET (page_url cli 1), Stub.page_of "P1");
              (GET (page_url cli 2), Stub.page_of "P2");
              (download a, Stub.ok ["AAA"; "BBB"]);
              (download b, Stub.ok ["CCC"]);
              (download c, Stub.ok ["DDD"])].

(** The download of the first item is refused. *)
Definition failing : server :=
  Stub.serve [(GET (page_url cli 1), Stub.page_of "P1");
              (GET (page_url cli 2), Stub.page_of "P2");
              (download a, not_found);
              (download b, Stub.ok ["CCC"])].

(** The first page lists an item without a destination name. *)
Definition with_raw : server :=
  Stub.serve [(GET (page_url cli 1), Stub.page_of "R1");
              (GET (page_url cli 2), Stub.page_of "P2")].

(** The album asks for a password and rejects every login. *)
Definition locked : server :=
  Stub.serve [(GET (page_url cli 1), Stub.login_page);
              (login_post secret_cli, still_login)].

Definition with_files (files : list (string * string)) : world :=
  {| fs := list_to_map files; sent := []; stdout := []; stderr := [] |}.

(** The downloads of the failing album, as [async_main] awaits them. *)
Definition failing_run : Run.state :=
  Run.Downloading
    (Sched.gather_with_concurrency 4
       (run_coroutine (H := lib) <$> omap (coroutine_of (H := lib) cli) [a; b])
       (extend_sent [GET (page_url cli 1); GET (page_url cli 2)]
          Stub.empty_world)).

(** Both coroutines pass the semaphore; the first one runs up to the refused
    request and ends with its error; then [async_main] is resumed. *)
Definition fail_fast_schedule : list Run.label :=
  [Run.Task (Sched.Acquire 0); Run.Task (Sched.Acquire 1);
   Run.Task (Sched.Resume 1); Run.Task (Sched.Resume 1);
   Run.Task (Sched.Resume 0); Run.Task (Sched.Resume 0);
   Run.Task (Sched.Resume 0); Run.Task (Sched.Resume 0);
   Run.Main].

(** Two coroutines are let in and the second performs two effects. *)
Definition opening_schedule : list Sched.label :=
  [Sched.Acquire 0; Sched.Acquire 1; Sched.Resume 1; Sched.Resume 1].

(** Fixtures of the further properties. *)

Definition accepted : response :=
  {| r_url_path := "/f/abc"; r_status := 200; r_chunks := [];
     r_complete := true |}.

(** A challenge page without the token field. *)
Definition no_token : server :=
  Stub.serve [(GET (page_url cli 1),
               Stub.ok ["<form>" +:+ challenge_marker +:+ "</form>"])].

(** A page that is not an album page. *)
Definition not_an_album : server :=
  Stub.serve [(GET (page_url cli 1), Stub.ok ["<html>maintenance</html>"])].

(** The login is accepted, and the challenge is shown all the same. *)
Definition looping : server :=
  Stub.serve [(GET (page_url cli 1), Stub.login_page);
              (login_post secret_cli, accepted)].

(** The challenge is shown until the login has been posted. *)
Definition protected : server :=
  λ log rq,
    if bool_decide (login_post secret_cli ∈ log)
    then Stub.serve [(GET (page_url cli 1), Stub.page_of "P1");
                     (GET (page_url cli 2), Stub.page_of "P2");
                     (login_post secret_cli, accepted)] log rq
    else looping log rq.

(** The first page lists nothing. *)
Definition empty : server :=
  Stub.serve [(GET (page_url cli 1), Stub.page_of "P2")].

Definition no_pages (i : nat) : list media := [].

Definition windows_lib : Lib :=
  {| os_path_splitext := posixpath.splitext;
     os_path_join := posixpath.join;
     platform_system := "Windows";
     urlparse_path := id;
     guess_extension := Stub.mime;
     json_loads := λ _, None |}.

(** One coroutine has returned, another is about to. *)
Definition half_done : Sched.state :=
  {| Sched.permits := 3;
     Sched.tasks := [Sched.Done None; Sched.Running (Ret ())];
     Sched.failure := None;
     Sched.now := Stub.empty_world |}.

(** An album of three pages, the third one empty. *)
Definition long_pages (i : nat) : list media :=
  match i with
  | 1 => [a; b]
  | 2 => [c]
  | _ => []
  end.

Definition long_lib : Lib :=
  Stub.lib [("P1", {| mediaFiles := [a; b] |}); ("P3", {| mediaFiles := [c] |});
            ("P2", {| mediaFiles := [] |})].

Definition long : server :=
  Stub.serve [(GET (page_url cli 1), Stub.page_of "P1");
              (GET (page_url cli 2), Stub.page_of "P3");
              (GET (page_url cli 3), Stub.page_of "P2")].

(** Five items for the four permits of the orchestrator. *)
Definition fourth : media := Stub.photo "d" [].
Definition fifth : media := Stub.photo "e" [].

Definition five : list media := [a; b; c; fourth; fifth].

Definition busy : server :=
  Stub.serve [(download a, Stub.ok ["AAA"; "BBB"]);
              (download b, Stub.ok ["CCC"]);
              (download c, Stub.ok ["DDD"]);
              (download fourth, Stub.ok ["EEE"]);
              (download fifth, Stub.ok ["FFF"])].

(** The first four coroutines are let in, and the first one runs to the end
    of its body: it tests the destination, opens the temporary file, sends
    its request, writes two chunks and renames the file. *)
Definition full_house : list Sched.label :=
  [Sched.Acquire 0; Sched.Acquire 1; Sched.Acquire 2; Sched.Acquire 3;
   Sched.Resume 0; Sched.Resume 0; Sched.Resume 0; Sched.Resume 0;
   Sched.Resume 0; Sched.Resume 0].

(** A destination directory after an interrupted run: a stale temporary
    file, a finished download and a hidden file. *)
Definition leftovers : world :=
  with_files [("out/a.jpg.tmp", "AA"); ("out/b.jpg", "CCC");
              ("out/.c.tmp", "x")].

End Album.

(** * Properties *)

(** ** Strings *)

Lemma app_cons (c : ascii) (s t : string) :
  String c s +:+ t = String c (s +:+ t).
Proof. reflexivity. Qed.

Lemma app_empty_l (s : string) : "" +:+ s = s.
Proof. reflexivity. Qed.

Lemma app_empty_r (s : string) : s +:+ "" = s.
Proof. induction s as [|c s IH]; [done|]. by rewrite app_cons, IH. Qed.

Lemma app_assoc_str (s t u : string) : (s +:+ t) +:+ u = s +:+ t +:+ u.
Proof. induction s as [|c s IH]; [done|]. by rewrite !app_cons, IH. Qed.

Lemma length_app_str (s t : string) :
  String.length (s +:+ t) = String.length s + String.length t.
Proof. induction s as [|c s IH]; [done|]. rewrite app_cons. simpl. by rewrite IH. Qed.

(** A path and the path with a suffix added are two paths. *)
Lemma suffixed_ne (p suffix : string) : suffix ≠ "" → p +:+ suffix ≠ p.
Proof.
  intros Hne Heq. apply (f_equal String.length) in Heq.
  rewrite length_app_str in Heq. destruct suffix; [done|]. simpl in Heq. lia.
Qed.

Lemma tmp_ne (p : string) : p +:+ ".tmp" ≠ p.
Proof. by apply suffixed_ne. Qed.

Lemma concat_cons (chunk : string) (chunks : list string) :
  Str.concat (chunk :: chunks) = chunk +:+ Str.concat chunks.
Proof.
  unfold Str.concat. destruct chunks as [|c cs]; simpl.
  - by rewrite app_empty_r.
  - done.
Qed.

Lemma concat_app (l1 l2 : list string) :
  Str.concat (l1 ++ l2) = Str.concat l1 +:+ Str.concat l2.
Proof.
  induction l1 as [|c l1 IH]; [done|].
  change ((c :: l1) ++ l2) with (c :: (l1 ++ l2)).
  by rewrite !concat_cons, IH, app_assoc_str.
Qed.

Section Colon.

Context (c : ascii).

Lemma startswith_char (x : ascii) (s : string) :
  Str.startswith (String c "") (String x s) = bool_decide (c = x).
Proof.
  unfold Str.startswith. simpl. destruct (ascii_dec c x) as [->|Hne].
  - rewrite bool_decide_eq_true_2 by done. by destruct s.
  - by rewrite bool_decide_eq_false_2.
Qed.

Lemma contains_char_app (s t : string) :
  Str.contains (String c "") (s +:+ t) = Str.contains (String c "") s || Str.contains (String c "") t.
Proof.
  induction s as [|x s IH]; [done|].
  rewrite app_cons. cbn [Str.contains]. rewrite !startswith_char, IH.
  by rewrite orb_assoc.
Qed.

Lemma split_char_pieces (s : string) :
  Forall (λ piece, Str.contains (String c "") piece = false) (Str.split (String c "") s).
Proof.
  unfold Str.split. induction s as [|x s IH]; [by repeat constructor|].
  cbn [Str.split_go]. rewrite startswith_char. case_bool_decide as Hx.
  - simpl. by apply Forall_cons.
  - assert (Str.contains (String c "") (String x "") = false) as Hone.
    { cbn [Str.contains]. rewrite startswith_char.
      by rewrite bool_decide_eq_false_2. }
    destruct (Str.split_go (String c "") 0 s) as [|piece pieces];
      [by repeat constructor|].
    apply Forall_cons in IH as [Hpiece Hpieces]. apply Forall_cons. split; [|done].
    cbn [Str.contains]. rewrite startswith_char, Hpiece.
    by rewrite bool_decide_eq_false_2.
Qed.

Lemma join_char_free (pieces : list string) :
  Forall (λ piece, Str.contains (String c "") piece = false) pieces →
  Str.contains (String c "") (Str.join "" pieces) = false.
Proof.
  induction 1 as [|piece pieces Hpiece _ IH]; [done|].
  destruct pieces as [|piece' pieces]; [done|].
  cbn [Str.join]. rewrite app_empty_l, contains_char_app, Hpiece. apply IH.
Qed.

Lemma replace_char_free (s : string) :
  Str.contains (String c "") (Str.replace (String c "") "" s) = false.
Proof. apply join_char_free, split_char_pieces. Qed.

End Colon.

Lemma startswith_app (pre s : string) : Str.startswith pre (pre +:+ s) = true.
Proof.
  unfold Str.startswith. induction pre as [|x pre IH]; [by destruct s|].
  rewrite app_cons. simpl. by destruct (ascii_dec x x).
Qed.

Lemma substring_whole (s : string) :
  String.substring 0 (String.length s) s = s.
Proof. induction s as [|x s IH]; [done|]. simpl. by rewrite IH. Qed.

Lemma drop_app (pre s : string) : Str.drop (String.length pre) (pre +:+ s) = s.
Proof.
  unfold Str.drop. induction pre as [|x pre IH].
  - rewrite app_empty_l. simpl. rewrite Nat.sub_0_r. apply substring_whole.
  - rewrite app_cons. simpl. apply IH.
Qed.

Lemma endswith_length (suf s : string) :
  Str.endswith suf s = true → String.length suf ≤ String.length s.
Proof.
  induction s as [|x s IH]; cbn [Str.endswith].
  - rewrite orb_false_r. by intros ->%String.eqb_eq.
  - intros [->%String.eqb_eq|Hs]%orb_true_iff; [done|].
    specialize (IH Hs). simpl. lia.
Qed.

Lemma split_char_prefix (c : ascii) (pre rest : string) :
  Str.contains (String c "") pre = false →
  Str.split (String c "") (pre +:+ String c rest) =
  pre :: Str.split (String c "") rest.
Proof.
  unfold Str.split. induction pre as [|x pre IH].
  - intros _. rewrite app_empty_l. cbn [Str.split_go].
    rewrite startswith_char. by rewrite bool_decide_eq_true_2.
  - cbn [Str.contains]. rewrite startswith_char.
    intros [Hx Hpre]%orb_false_iff. rewrite app_cons. cbn [Str.split_go].
    rewrite startswith_char, Hx. by rewrite IH.
Qed.

(** ** Running programs *)

Section Running.

Context (srv : server).

Lemma exec_bind {A B} (p : prog A) (f : A → prog B) (w : world) :
  exec srv (bind p f) w =
  match exec srv p w with
  | (Returned a, w') => exec srv (f a) w'
  | (Raised e, w') => (Raised e, w')
  | (Unfinished, w') => (Unfinished, w')
  end.
Proof.
  revert w. induction p as [a|e| |X op k IH]; intros w; simpl; try done.
  destruct (perform srv op w) as [[e|x] w']; [done|]. apply IH.
Qed.

Lemma exec_perform {X} (op : effect X) (w : world) :
  exec srv (perform_ op) w =
  match perform srv op w with
  | (inr x, w') => (Returned x, w')
  | (inl e, w') => (Raised e, w')
  end.
Proof. simpl. by destruct (perform srv op w) as [[e|x] w']. Qed.

Lemma always_now {A} (P : world → Prop) (p : prog A) (w : world) :
  always srv P p w → P w.
Proof. intros H. apply (H 0). Qed.

Lemma always_ret {A} (P : world → Prop) (a : A) (w : world) :
  P w → always srv P (Ret a) w.
Proof. intros H [|n]; done. Qed.

Lemma always_raise {A} (P : world → Prop) (e : exn) (w : world) :
  P w → always (A := A) srv P (Raise e) w.
Proof. intros H [|n]; done. Qed.

Lemma always_do {A X} (P : world → Prop) (op : effect X) (k : X → prog A)
    (w : world) :
  P w →
  (∀ e w', perform srv op w = (inl e, w') → P w') →
  (∀ x w', perform srv op w = (inr x, w') → always srv P (k x) w') →
  always srv P (Do op k) w.
Proof.
  intros Hw He Hk [|n]; [done|]. simpl.
  destruct (perform srv op w) as [[e|x] w'] eqn:Hop.
  - by eapply He.
  - by eapply Hk.
Qed.

Lemma always_bind {A B} (P : world → Prop) (p : prog A) (f : A → prog B)
    (w : world) :
  always srv P p w →
  (∀ a w', exec srv p w = (Returned a, w') → always srv P (f a) w') →
  always srv P (bind p f) w.
Proof.
  revert w. induction p as [a|e| |X op k IH]; intros w Hp Hf; simpl.
  - by apply Hf.
  - apply always_raise, (Hp 0).
  - intros [|n]; apply (Hp 0).
  - apply always_do.
    + apply (Hp 0).
    + intros e w' Hop. specialize (Hp 1). simpl in Hp. by rewrite Hop in Hp.
    + intros x w' Hop. apply IH.
      * intros n. specialize (Hp (S n)). simpl in Hp. by rewrite Hop in Hp.
      * intros a w'' Hex. apply Hf. simpl. by rewrite Hop.
Qed.

Lemma always_mono {A} (P Q : world → Prop) (p : prog A) (w : world) :
  (∀ w', P w' → Q w') → always srv P p w → always srv Q p w.
Proof. intros HPQ Hp n. apply HPQ, Hp. Qed.

End Running.

(** ** Writing files *)

Lemma set_fs_id (w : world) : set_fs (λ m, m) w = w.
Proof. by destruct w. Qed.

Lemma set_fs_set_fs (f g : gmap string string → gmap string string) (w : world) :
  set_fs g (set_fs f w) = set_fs (λ m, g (f m)) w.
Proof. done. Qed.

Lemma set_fs_ext (f g : gmap string string → gmap string string) (w : world) :
  f (fs w) = g (fs w) → set_fs f w = set_fs g w.
Proof. unfold set_fs. by intros ->. Qed.

Section Writing.

Context (srv : server).

Lemma rendered_cons (c : comment) (cs : list comment) :
  rendered (c :: cs) =
  if isDeleted c then rendered cs else comment_block c +:+ rendered cs.
Proof.
  unfold rendered. rewrite filter_cons.
  destruct (isDeleted c); case_decide; try done.
  by rewrite fmap_cons, concat_cons.
Qed.

(** The comment loop appends the rendering to the open file. *)
Lemma exec_write_comments (f : string) (cs : list comment) (w : world)
    (content : string) :
  fs w !! f = Some content →
  exec srv (write_comments f cs) w =
  (Returned (), set_fs (insert f (content +:+ rendered cs)) w).
Proof.
  revert w content. induction cs as [|c cs IH]; intros w content Hf.
  - simpl. f_equal. unfold rendered. simpl. rewrite app_empty_r.
    rewrite <- (set_fs_id w) at 1. apply set_fs_ext. by rewrite insert_id.
  - cbn [write_comments]. rewrite exec_bind, rendered_cons.
    destruct (isDeleted c); simpl.
    + by apply IH.
    + rewrite (IH _ (content +:+ comment_block c)).
      * f_equal. rewrite set_fs_set_fs. apply set_fs_ext.
        by rewrite insert_insert_eq, app_assoc_str.
      * simpl. by rewrite Hf, lookup_insert_eq.
Qed.

(** The chunk loop appends the chunks to the open file. *)
Lemma exec_write_chunks (f : string) (chunks : list string) (w : world)
    (content : string) :
  fs w !! f = Some content →
  exec srv (write_chunks f chunks) w =
  (Returned (), set_fs (insert f (content +:+ Str.concat chunks)) w).
Proof.
  revert w content. induction chunks as [|c cs IH]; intros w content Hf.
  - simpl. f_equal. unfold Str.concat. simpl. rewrite app_empty_r.
    rewrite <- (set_fs_id w) at 1. apply set_fs_ext. by rewrite insert_id.
  - cbn [write_chunks]. rewrite exec_bind, concat_cons. simpl.
    rewrite (IH _ (content +:+ c)).
    + f_equal. rewrite set_fs_set_fs. apply set_fs_ext.
      by rewrite insert_insert_eq, app_assoc_str.
    + simpl. by rewrite Hf, lookup_insert_eq.
Qed.

Lemma only_tmp_write (tmp data : string) (w0 w : world) :
  only_tmp tmp w0 w →
  only_tmp tmp w0
    (set_fs (λ m, <[tmp := default "" (m !! tmp) +:+ data]> m) w).
Proof. intros H p Hp. simpl. rewrite lookup_insert_ne by done. by apply H. Qed.

Lemma always_write_comments (tmp : string) (cs : list comment) (w0 w : world) :
  only_tmp tmp w0 w →
  always srv (only_tmp tmp w0) (write_comments tmp cs) w.
Proof.
  revert w. induction cs as [|c cs IH]; intros w Hw.
  - by apply always_ret.
  - cbn [write_comments]. destruct (isDeleted c); simpl.
    + by apply IH.
    + apply always_do; [done|intros ?? [=]|].
      intros [] w' [= <-]. apply IH. by apply only_tmp_write.
Qed.

Lemma always_write_chunks (tmp : string) (chunks : list string) (w0 w : world) :
  only_tmp tmp w0 w →
  always srv (only_tmp tmp w0) (write_chunks tmp chunks) w.
Proof.
  revert w. induction chunks as [|c cs IH]; intros w Hw.
  - by apply always_ret.
  - cbn [write_chunks]. simpl. apply always_do; [done|intros ?? [=]|].
    intros [] w' [= <-]. apply IH. by apply only_tmp_write.
Qed.

Lemma only_tmp_uncommitted (tmp final : string) (w0 w : world) :
  final ≠ tmp → only_tmp tmp w0 w → uncommitted tmp final w0 w.
Proof. intros Hne H. split; [by apply H|done]. Qed.

(** The rename that ends a write: from a world where only [tmp] differs
    from [w0] and [tmp] holds [content]. *)
Lemma rename_commits (tmp final content : string) (w0 w : world) :
  final ≠ tmp → only_tmp tmp w0 w → fs w !! tmp = Some content →
  perform srv (os_rename tmp final) w =
    (inr (), set_fs (λ m, <[final := content]> (delete tmp m)) w) ∧
  committed tmp final content w0
    (set_fs (λ m, <[final := content]> (delete tmp m)) w).
Proof.
  intros Hne Hw Htmp. split; [simpl; by rewrite Htmp|].
  split; [|split]; simpl.
  - by rewrite lookup_insert_eq.
  - rewrite lookup_insert_ne by done. by rewrite lookup_delete_eq.
  - intros p Hp1 Hp2.
    rewrite lookup_insert_ne, lookup_delete_ne by done. by apply Hw.
Qed.

End Writing.

(** ** [save_comments] *)

Section SaveComments.

Context `{Lib} (srv : server).

Lemma comment_tmp_ne (destination_filename : string) :
  comment_filename destination_filename ≠
  comment_filename destination_filename +:+ ".tmp".
Proof. intros Heq. by apply (tmp_ne (comment_filename destination_filename)). Qed.

Lemma exec_save_comments (destination_filename : string) (cs : list comment)
    (w : world) :
  let final := comment_filename destination_filename in
  exec srv (save_comments destination_filename cs) w =
  (Returned (),
   set_fs (λ m, <[final := rendered cs]> (delete (final +:+ ".tmp") m)) w).
Proof.
  intros final. unfold save_comments. fold final.
  rewrite exec_bind, exec_perform. cbn [perform].
  rewrite exec_bind, (exec_write_comments srv _ _ _ "")
    by (simpl; apply lookup_insert_eq).
  rewrite exec_perform, app_empty_l. cbn [perform].
  rewrite !set_fs_set_fs. cbn [fs set_fs]. rewrite lookup_insert_eq.
  f_equal. rewrite set_fs_set_fs. apply set_fs_ext.
  by rewrite insert_insert_eq, delete_insert_eq.
Qed.

Lemma always_save_comments (destination_filename : string)
    (cs : list comment) (w : world) :
  let final := comment_filename destination_filename in
  always srv
    (λ w', uncommitted (final +:+ ".tmp") final w w' ∨
           committed (final +:+ ".tmp") final (rendered cs) w w')
    (save_comments destination_filename cs) w.
Proof.
  intros final. pose proof (comment_tmp_ne destination_filename) as Hne.
  fold final in Hne. unfold save_comments. fold final.
  set (tmp := final +:+ ".tmp") in *. simpl.
  assert (only_tmp tmp w (set_fs (insert tmp "") w)) as H1.
  { intros p Hp. simpl. by rewrite lookup_insert_ne. }
  apply always_do; [by left; split|intros ?? [=]|].
  intros [] w1 [= <-]. apply always_bind.
  - eapply always_mono; [|by apply always_write_comments, H1].
    intros w' Hw'. left. by apply only_tmp_uncommitted.
  - intros [] w2. rewrite (exec_write_comments srv _ _ _ "")
      by (simpl; apply lookup_insert_eq).
    intros [= <-]. rewrite app_empty_l, set_fs_set_fs.
    set (w2 := set_fs _ w).
    assert (only_tmp tmp w w2) as H2.
    { intros p Hp. subst w2. simpl. by rewrite !lookup_insert_ne. }
    assert (fs w2 !! tmp = Some (rendered cs)) as H3.
    { subst w2. simpl. by rewrite lookup_insert_eq. }
    destruct (rename_commits srv tmp final _ w w2 Hne H2 H3) as [Hop Hc].
    apply always_do.
    + left. by apply only_tmp_uncommitted.
    + intros e w'. rewrite Hop. intros [=].
    + intros [] w'. rewrite Hop. intros [= <-]. apply always_ret. by right.
Qed.

End SaveComments.

(** ** [download_media] *)

Section DownloadMedia.

Context `{Lib} (srv : server).

Lemma exec_write_media (url destination_filename : string) (w : world)
    (r : response) :
  srv (sent w) (GET url) = Some r → delivered r →
  exec srv (write_media url destination_filename) w =
  (Returned (),
   add_sent (GET url)
     (set_fs (λ m, <[destination_filename := Str.concat (r_chunks r)]>
                     (delete (destination_filename +:+ ".tmp") m)) w)).
Proof.
  intros Hsrv [Hstatus Hcomplete]. unfold write_media.
  rewrite exec_bind, exec_perform. cbn [perform].
  rewrite exec_bind, exec_perform. cbn [perform]. unfold send.
  cbn [sent set_fs]. rewrite Hsrv.
  rewrite exec_bind. unfold raise_for_status.
  rewrite bool_decide_eq_false_2 by lia. cbn [exec].
  rewrite exec_bind. unfold iter_chunked_into.
  rewrite exec_bind, (exec_write_chunks srv _ _ _ "")
    by (simpl; apply lookup_insert_eq).
  rewrite Hcomplete. cbn [exec]. rewrite exec_perform, app_empty_l.
  cbn [perform fs set_fs add_sent]. rewrite lookup_insert_eq.
  f_equal. unfold add_sent, set_fs. cbn. f_equal.
  by rewrite insert_insert_eq, delete_insert_eq.
Qed.

Lemma always_write_media (url destination_filename : string) (w : world) :
  let tmp := destination_filename +:+ ".tmp" in
  always srv
    (λ w', uncommitted tmp destination_filename w w' ∨
           ∃ r, srv (sent w) (GET url) = Some r ∧ delivered r ∧
                committed tmp destination_filename
                  (Str.concat (r_chunks r)) w w')
    (write_media url destination_filename) w.
Proof.
  intros tmp. subst tmp. unfold write_media.
  set (final := destination_filename). set (tmp := final +:+ ".tmp").
  assert (final ≠ tmp) as Hne.
  { intros Heq. by apply (tmp_ne final). }
  simpl.
  assert (only_tmp tmp w (set_fs (insert tmp "") w)) as H1.
  { intros p Hp. simpl. by rewrite lookup_insert_ne. }
  apply always_do; [by left; split|intros ?? [=]|].
  intros [] w1 [= <-].
  apply always_do; [left; by apply only_tmp_uncommitted| |].
  { intros e w'. cbn [perform]. unfold send. cbn [sent set_fs].
    destruct (srv (sent w) (GET url)); intros ?; simplify_eq;
      left; apply only_tmp_uncommitted; [done|exact H1]. }
  intros r w2. cbn [perform]. unfold send. cbn [sent set_fs].
  destruct (srv (sent w) (GET url)) as [r'|] eqn:Hsrv; [|intros [=]].
  intros [= -> <-].
  set (w2 := add_sent _ _).
  assert (only_tmp tmp w w2) as H2 by exact H1.
  unfold raise_for_status. case_bool_decide as Hstatus; simpl.
  { apply always_raise. left. by apply only_tmp_uncommitted. }
  apply always_bind.
  - eapply always_mono;
      [intros w' Hw'; left; apply only_tmp_uncommitted, Hw'; done|].
    unfold iter_chunked_into. apply always_bind.
    + by apply always_write_chunks.
    + intros [] w3. rewrite (exec_write_chunks srv _ _ _ "")
        by (simpl; apply lookup_insert_eq).
      intros [= <-].
      assert (only_tmp tmp w (set_fs (insert tmp ("" +:+ Str.concat (r_chunks r))) w2)).
      { intros p Hp. simpl. by rewrite !lookup_insert_ne. }
      destruct (r_complete r); [by apply always_ret|by apply always_raise].
  - intros [] w3. unfold iter_chunked_into.
    rewrite exec_bind, (exec_write_chunks srv _ _ _ "")
      by (simpl; apply lookup_insert_eq).
    destruct (r_complete r) eqn:Hcomplete; [|done]. intros [= <-].
    rewrite app_empty_l. set (w3 := set_fs _ w2).
    assert (only_tmp tmp w w3) as H3.
    { intros p Hp. subst w3. simpl. by rewrite !lookup_insert_ne. }
    assert (fs w3 !! tmp = Some (Str.concat (r_chunks r))) as H4.
    { subst w3. simpl. by rewrite lookup_insert_eq. }
    destruct (rename_commits srv tmp final _ w w3 Hne H3 H4) as [Hop Hc].
    apply always_do.
    + left. by apply only_tmp_uncommitted.
    + intros e w'. rewrite Hop. intros [=].
    + intros [] w'. rewrite Hop. intros [= <-]. apply always_ret.
      right. exists r. split; [done|]. split; [split; [lia|done]|done].
Qed.

End DownloadMedia.

(** ** The item fetcher *)

Section ItemFetcher.

Context `{Lib} (srv : server).

Lemma rendered_app (cs1 cs2 : list comment) :
  rendered (cs1 ++ cs2) = rendered cs1 +:+ rendered cs2.
Proof. unfold rendered. by rewrite filter_app, fmap_app, concat_app. Qed.

(** Taking the deleted comments out of a list does not change its
    rendering. *)
Lemma rendered_filter (cs : list comment) :
  rendered (filter (λ c, isDeleted c = false) cs) = rendered cs.
Proof.
  unfold rendered. f_equal. f_equal.
  induction cs as [|c cs IH]; [done|].
  rewrite filter_cons. destruct (decide (isDeleted c = false)) as [Hc|Hc].
  - rewrite filter_cons, decide_True by done. by rewrite IH.
  - done.
Qed.

Lemma rendered_all_deleted (cs : list comment) :
  Forall (λ c, isDeleted c = true) cs → rendered cs = "".
Proof.
  induction 1 as [|c cs Hc _ IH]; [done|]. by rewrite rendered_cons, Hc.
Qed.

(** The run of [download_media] when the destination is not there yet. *)
Lemma exec_download_media_absent (url destination_filename : string)
    (m : media) (v : bool) (w : world) :
  fs w !! destination_filename = None →
  exec srv (download_media url destination_filename m v) w =
  exec srv
    (write_media url destination_filename;;
     match comments m with
     | _ :: _ => save_comments destination_filename (comments m)
     | [] => Ret ()
     end)%prog
    (if v then add_stdout ("Downloading " +:+ uuid m +:+ " ⏳") w else w).
Proof.
  intros Hfs. unfold download_media.
  rewrite exec_bind, exec_perform. cbn [perform]. rewrite Hfs.
  rewrite bool_decide_eq_false_2 by (by intros [? ?]). cbn [negb].
  rewrite exec_bind. by destruct v.
Qed.

(** C1. When the destination file of an item is already there,
    [download_media] returns at once: at no point of its run has a request
    been sent or a file been created, changed or removed; all it may do is
    print the "already downloaded" line. *)
Theorem download_media_skips_existing (url destination_filename : string)
    (m : media) (v : bool) (w : world) :
  is_Some (fs w !! destination_filename) →
  exec srv (download_media url destination_filename m v) w =
    (Returned (),
     if v then add_stdout (uuid m +:+ " already downloaded ✔️") w else w) ∧
  ∀ n, let w' :=
         interrupted srv n (download_media url destination_filename m v) w in
       fs w' = fs w ∧ sent w' = sent w ∧ stderr w' = stderr w.
Proof.
  intros Hfs. unfold download_media. split.
  - rewrite exec_bind, exec_perform. cbn [perform].
    rewrite bool_decide_eq_true_2 by done. cbn [negb]. by destruct v.
  - intros [|n]; [done|]. simpl.
    rewrite bool_decide_eq_true_2 by done. simpl.
    destruct v; [|by destruct n]. by destruct n as [|[|n]].
Qed.

(** C9. [save_comments] always returns, and the comment file then holds
    exactly the comments that are not deleted, in their order, each as the
    text [**nickname**: body] followed by an empty line.  A deleted comment
    contributes nothing: the run on a comment list is the run on the list
    without its deleted comments, and a deleted comment put anywhere into a
    list changes nothing of the run. *)
Theorem save_comments_writes_rendering (destination_filename : string)
    (cs : list comment) (w : world) :
  (∃ w', exec srv (save_comments destination_filename cs) w = (Returned (), w') ∧
         fs w' !! comment_filename destination_filename =
           Some (Str.concat
                   ((λ c, "**" +:+ nickname c +:+ "**: " +:+ body c +:+
                          String "010"%char (String "010"%char "")) <$>
                    filter (λ c, isDeleted c = false) cs))) ∧
  exec srv (save_comments destination_filename cs) w =
    exec srv (save_comments destination_filename
                (filter (λ c, isDeleted c = false) cs)) w ∧
  (∀ cs1 cs2 author text,
     exec srv
       (save_comments destination_filename
          (cs1 ++ {| nickname := author; body := text; isDeleted := true |} :: cs2))
       w =
     exec srv (save_comments destination_filename (cs1 ++ cs2)) w).
Proof.
  split; [|split].
  - eexists. split; [apply exec_save_comments|]. simpl.
    by rewrite lookup_insert_eq.
  - rewrite !exec_save_comments. by rewrite rendered_filter.
  - intros cs1 cs2 author text. rewrite !exec_save_comments.
    by rewrite !rendered_app, rendered_cons.
Qed.

(** C4 (what the code does).  For an item that is not downloaded yet, whose
    download is delivered and whose comments are all deleted (and there is
    at least one), [download_media] does call [save_comments]: when it
    returns, the sibling [.md] file exists and is empty. *)
Theorem all_deleted_comments_leave_empty_file (url destination_filename : string)
    (m : media) (v : bool) (w : world) (r : response) :
  fs w !! destination_filename = None →
  comments m ≠ [] →
  Forall (λ c, isDeleted c = true) (comments m) →
  srv (sent w) (GET url) = Some r → delivered r →
  ∃ w', exec srv (download_media url destination_filename m v) w = (Returned (), w') ∧
        fs w' !! comment_filename destination_filename = Some "".
Proof.
  intros Hfs Hne Hdel Hsrv Hr. rewrite exec_download_media_absent by done.
  rewrite exec_bind.
  rewrite (exec_write_media srv url destination_filename _ r)
    by (by destruct v).
  destruct (comments m) as [|c cs] eqn:Hcs; [done|].
  rewrite exec_save_comments. eexists. split; [done|].
  simpl. by rewrite lookup_insert_eq, rendered_all_deleted.
Qed.

(** C2 (amended).  Both writes go to the path with [.tmp] added and end with
    a rename onto the final path.  Wherever the write is cut, either the
    final path holds exactly what it held before the write and nothing but
    the temporary file differs from before, or the rename has happened: the
    final path holds the whole content, the temporary file is gone and
    nothing else differs.  The comment write always reaches the second
    state; the media write reaches it when the response is delivered. *)
Theorem durable_writes (url destination_filename : string) (cs : list comment)
    (w : world) :
  let comment_file := comment_filename destination_filename in
  (∀ n, let w' := interrupted srv n (save_comments destination_filename cs) w in
        uncommitted (comment_file +:+ ".tmp") comment_file w w' ∨
        committed (comment_file +:+ ".tmp") comment_file (rendered cs) w w') ∧
  (∃ w', exec srv (save_comments destination_filename cs) w = (Returned (), w') ∧
         committed (comment_file +:+ ".tmp") comment_file (rendered cs) w w') ∧
  (∀ n, let w' := interrupted srv n (write_media url destination_filename) w in
        uncommitted (destination_filename +:+ ".tmp") destination_filename w w' ∨
        ∃ r, srv (sent w) (GET url) = Some r ∧ delivered r ∧
             committed (destination_filename +:+ ".tmp") destination_filename
               (Str.concat (r_chunks r)) w w') ∧
  (∀ r, srv (sent w) (GET url) = Some r → delivered r →
        ∃ w', exec srv (write_media url destination_filename) w = (Returned (), w') ∧
              committed (destination_filename +:+ ".tmp") destination_filename
                (Str.concat (r_chunks r)) w w').
Proof.
  intros comment_file.
  pose proof (comment_tmp_ne destination_filename) as Hc. fold comment_file in Hc.
  pose proof (tmp_ne destination_filename) as Hm.
  split; [apply always_save_comments|]. split.
  { eexists. split; [apply exec_save_comments|]. fold comment_file.
    split; [|split]; simpl.
    - by rewrite lookup_insert_eq.
    - rewrite lookup_insert_ne by done. by rewrite lookup_delete_eq.
    - intros p ??. by rewrite lookup_insert_ne, lookup_delete_ne. }
  split; [apply always_write_media|].
  intros r Hsrv Hr. eexists. split; [by apply exec_write_media|].
  split; [|split]; simpl.
  - by rewrite lookup_insert_eq.
  - rewrite lookup_insert_ne by done. by rewrite lookup_delete_eq.
  - intros p ??. by rewrite lookup_insert_ne, lookup_delete_ne.
Qed.

End ItemFetcher.

(** ** Enumeration *)

Section Enumeration.

Context `{Lib} (srv : server) (a : args).

Lemma extend_sent_nil (w : world) : extend_sent [] w = w.
Proof. destruct w. unfold extend_sent. simpl. by rewrite app_nil_r. Qed.

Lemma extend_sent_extend_sent (l1 l2 : list request) (w : world) :
  extend_sent l2 (extend_sent l1 w) = extend_sent (l1 ++ l2) w.
Proof. unfold extend_sent. simpl. by rewrite app_assoc. Qed.

Lemma exec_unlink_all (files : list string) (w : world) :
  NoDup files → (∀ f, f ∈ files → is_Some (fs w !! f)) →
  exec srv (unlink_all files) w =
  (Returned (), set_fs (λ m, foldl (λ m f, delete f m) m files) w).
Proof.
  revert w. induction files as [|f files IH]; intros w Hnd Hin.
  - simpl. by rewrite set_fs_id.
  - apply NoDup_cons in Hnd as [Hf Hnd]. cbn [unlink_all].
    rewrite exec_bind, exec_perform. cbn [perform].
    destruct (Hin f) as [c Hc]; [by left|]. rewrite Hc.
    rewrite IH; [done|done|].
    intros g Hg. simpl. rewrite lookup_delete_ne by (by intros ->).
    apply Hin. by right.
Qed.

(** The start of [async_main] always returns; it sends nothing and prints
    nothing. *)
Lemma exec_startup (w : world) :
  ∃ w1, exec srv (startup a) w = (Returned (), w1) ∧
        sent w1 = sent w ∧ stdout w1 = stdout w ∧ stderr w1 = stderr w.
Proof.
  unfold startup. rewrite exec_bind, exec_perform. cbn [perform].
  rewrite exec_bind, exec_perform. cbn [perform].
  rewrite exec_unlink_all.
  - by eexists.
  - apply NoDup_filter, NoDup_fst_map_to_list.
  - intros f [_ Hf]%list_elem_of_filter.
    apply list_elem_of_fmap in Hf as [[f' c] [-> Hf]].
    apply elem_of_map_to_list in Hf. by exists c.
Qed.

Lemma launch_eq (fuel : nat) (w : world) :
  ∃ w1, sent w1 = sent w ∧ stdout w1 = stdout w ∧ stderr w1 = stderr w ∧
    exec srv (collect fuel a) w = exec srv (enumerate fuel a 1 []) w1.
Proof.
  destruct (exec_startup w) as (w1 & Hex & ? & ? & ?). exists w1.
  repeat split; try done. unfold collect. by rewrite exec_bind, Hex.
Qed.

End Enumeration.

Section Authentication.

Context `{Lib} (srv : server) (a : args).

Lemma exec_enumerate_challenged (fuel : nat) (w : world) (r : response)
    (acc : list coroutine) :
  challenged srv a w r →
  exec srv (enumerate (S fuel) a 1 acc) w =
  exec srv
    (if negb (password_given a)
     then perform_ (print_stderr missing_password_message);;
          Raise (SystemExit 1)
     else
       authenticity_token ← lift (authenticity_token_of (text_of r));
       r ← perform_ (session_post (login_url a)
              [("session[password]", default "" (password a));
               ("authenticity_token", authenticity_token)]);
       if Str.endswith "/login" (r_url_path r)
       then perform_ (print_stderr login_failed_message);;
            Raise (SystemExit 1)
       else enumerate fuel a 1 acc)%prog
    (add_sent (GET (page_url a 1)) w).
Proof.
  intros (Hsrv & Hcomplete & Hmarker). cbn [enumerate].
  rewrite exec_bind, exec_perform. cbn [perform]. unfold send. rewrite Hsrv.
  rewrite exec_bind. unfold text. rewrite Hcomplete. cbn [exec].
  unfold text_of in Hmarker. by rewrite Hmarker.
Qed.

(** C8. When the first page shows the password challenge and no password
    was given (none, or an empty one), the run ends with exit status 1 before
    any download is scheduled: the only request sent is the one for page 1
    (no login POST, no download), the message about the missing password is
    printed on the error stream, and the ended run takes no further step. *)
Theorem missing_password_aborts (fuel : nat) (w : world) (r : response) :
  password_given a = false →
  challenged srv a w r →
  ∃ w', Run.launch srv (S fuel) a w = Some (Run.Exited 1 w' []) ∧
        sent w' = sent w ++ [GET (page_url a 1)] ∧
        stderr w' = stderr w ++ [missing_password_message] ∧
        ∀ l, Run.step srv l (Run.Exited 1 w' []) = None.
Proof.
  intros Hpw Hr. unfold Run.launch.
  destruct (launch_eq srv a (S fuel) w) as (w1 & Hs & _ & He & ->).
  rewrite (exec_enumerate_challenged fuel w1 r)
    by (unfold challenged; by rewrite Hs).
  rewrite Hpw. cbn [negb]. rewrite exec_bind, exec_perform. cbn [perform exec].
  eexists. split; [done|]. simpl. rewrite Hs, He. by repeat split.
Qed.

(** C7. When a password was given, the first page shows the challenge with a
    token, and the answer to the login POST is still on the login page, the
    run ends with exit status 1: the message about the failed authentication
    is printed on the error stream, and the only requests sent are the one
    for page 1 and the login POST, so no download was requested. *)
Theorem rejected_login_aborts (fuel : nat) (w : world) (r r' : response)
    (authenticity_token : string) :
  password_given a = true →
  challenged srv a w r →
  authenticity_token_of (text_of r) = inr authenticity_token →
  srv (sent w ++ [GET (page_url a 1)])
      (POST (login_url a)
         [("session[password]", default "" (password a));
          ("authenticity_token", authenticity_token)]) = Some r' →
  Str.endswith "/login" (r_url_path r') = true →
  ∃ w', Run.launch srv (S fuel) a w = Some (Run.Exited 1 w' []) ∧
        sent w' = sent w ++
          [GET (page_url a 1);
           POST (login_url a)
             [("session[password]", default "" (password a));
              ("authenticity_token", authenticity_token)]] ∧
        stderr w' = stderr w ++ [login_failed_message] ∧
        ∀ l, Run.step srv l (Run.Exited 1 w' []) = None.
Proof.
  intros Hpw Hr Htoken Hpost Hpath. unfold Run.launch.
  destruct (launch_eq srv a (S fuel) w) as (w1 & Hs & _ & He & ->).
  rewrite (exec_enumerate_challenged fuel w1 r)
    by (unfold challenged; by rewrite Hs).
  rewrite Hpw, Htoken. cbn [negb lift bind].
  rewrite exec_bind, exec_perform. cbn [perform]. unfold send.
  cbn [sent add_sent]. rewrite Hs, Hpost, Hpath.
  rewrite exec_bind, exec_perform. cbn [perform exec].
  eexists. split; [done|]. simpl. rewrite Hs, He, <- app_assoc.
  by repeat split.
Qed.

End Authentication.

Section Pagination.

Context `{Lib} (srv : server) (a : args).

Lemma destination_filename_error (m : media) (e : exn) :
  destination_filename a m = inl e → e = TypeError.
Proof.
  unfold destination_filename.
  destruct (String.eqb _ _); [|done].
  destruct (guess_extension _); [done|]. by intros [= <-].
Qed.

Lemma not_named_error (m : media) :
  ¬ named a m → destination_filename a m = inl TypeError.
Proof.
  unfold named, coroutine_of. intros Hm.
  destruct (destination_filename a m) as [e|d] eqn:Hd.
  - by rewrite (destination_filename_error m e Hd).
  - destruct Hm. by eexists.
Qed.

Lemma append_coroutines_named (ms : list media) (acc : list coroutine) :
  Forall (named a) ms →
  append_coroutines a ms acc = inr (acc ++ omap (coroutine_of a) ms).
Proof.
  intros Hms. revert acc. induction Hms as [|m ms Hm _ IH]; intros acc.
  - simpl. by rewrite app_nil_r.
  - cbn [append_coroutines omap list_omap]. destruct Hm as [c Hc].
    rewrite Hc. unfold coroutine_of in Hc.
    destruct (destination_filename a m) as [e|d]; [done|].
    injection Hc as <-. by rewrite IH, <- app_assoc.
Qed.

Lemma append_coroutines_error (ms : list media) (acc : list coroutine) (e : exn) :
  append_coroutines a ms acc = inl e → e = TypeError ∧ ¬ Forall (named a) ms.
Proof.
  revert acc. induction ms as [|m ms IH]; intros acc; [done|].
  cbn [append_coroutines].
  destruct (destination_filename a m) as [e'|d] eqn:Hd.
  - intros [= <-]. split; [by eapply destination_filename_error|].
    intros [[c Hc] _]%Forall_cons. unfold coroutine_of in Hc.
    by rewrite Hd in Hc.
  - intros [-> Hms]%IH. split; [done|]. by intros [_ ?]%Forall_cons.
Qed.

Lemma media_of_coroutines (ms : list media) :
  Forall (named a) ms → c_media <$> omap (coroutine_of a) ms = ms.
Proof.
  induction 1 as [|m ms [c Hc] _ IH]; [done|].
  cbn [omap list_omap]. rewrite Hc. cbn [fmap list_fmap]. fold (omap (coroutine_of a) ms).
  fold (fmap (M := list) c_media). rewrite IH. f_equal.
  unfold coroutine_of in Hc. destruct (destination_filename a m); [done|].
  by injection Hc as <-.
Qed.

(** One turn of the loop on a page of the stub. *)
Lemma exec_enumerate_stub (pages : nat → list media) (upto fuel i : nat)
    (acc : list coroutine) (w : world) :
  stub_pages srv a pages upto → 1 ≤ i ≤ upto →
  exec srv (enumerate (S fuel) a i acc) w =
  match pages i with
  | [] => (Returned acc, add_sent (GET (page_url a i)) w)
  | _ :: _ =>
      match append_coroutines a (pages i) acc with
      | inr acc' =>
          exec srv (enumerate fuel a (S i) acc') (add_sent (GET (page_url a i)) w)
      | inl e => (Raised e, add_sent (GET (page_url a i)) w)
      end
  end.
Proof.
  intros Hstub Hi.
  destruct (Hstub i (sent w) Hi) as (r & Hsrv & Hcomplete & Hmarker & Hlisting).
  cbn [enumerate]. rewrite exec_bind, exec_perform. cbn [perform].
  unfold send. rewrite Hsrv. rewrite exec_bind. unfold text.
  rewrite Hcomplete. cbn [exec]. unfold text_of in *.
  assert (bool_decide (i = 1) && Str.contains challenge_marker
            (Str.concat (r_chunks r)) = false) as ->.
  { case_bool_decide; [by rewrite Hmarker|done]. }
  rewrite Hlisting. cbn [lift bind mediaFiles].
  destruct (pages i) as [|m ms]; [done|].
  destruct (append_coroutines a (m :: ms) acc) as [e|acc']; [done|].
  cbn [lift bind]. by rewrite Nat.add_1_r.
Qed.

(** The loop over the pages [i], ..., [i+n] of a stub whose first empty page
    is page [i+n]. *)
Lemma exec_enumerate_pages (pages : nat → list media) (n extra i : nat)
    (acc : list coroutine) (w : world) :
  stub_pages srv a pages (i + n) → 1 ≤ i →
  (∀ j, i ≤ j < i + n → pages j ≠ []) → pages (i + n) = [] →
  Forall (named a) (items_of pages i n) →
  exec srv (enumerate (S n + extra) a i acc) w =
  (Returned (acc ++ omap (coroutine_of a) (items_of pages i n)),
   extend_sent (GET ∘ page_url a <$> seq i (S n)) w).
Proof.
  revert i acc w. induction n as [|n IH]; intros i acc w Hstub Hi Hfull Hend Hnamed.
  - cbn [Nat.add]. rewrite (exec_enumerate_stub pages (i + 0)) by (done || lia).
    rewrite Nat.add_0_r in Hend. rewrite Hend. unfold items_of. simpl.
    by rewrite app_nil_r.
  - cbn [Nat.add]. rewrite (exec_enumerate_stub pages (i + S n)) by (done || lia).
    unfold items_of in *. cbn [seq fmap list_fmap mjoin list_join] in Hnamed |- *.
    apply Forall_app in Hnamed as [Hpage Hrest].
    destruct (pages i) as [|m ms] eqn:Hpagei; [by destruct (Hfull i); [lia|]|].
    rewrite append_coroutines_named by done.
    replace (i + S n) with (S i + n) in * by lia.
    rewrite IH; [|done|lia|intros j ?; apply Hfull; lia|done|done].
    rewrite omap_app, <- app_assoc. f_equal.
    unfold add_sent, extend_sent. simpl. by rewrite <- app_assoc.
Qed.

(** The loop stops with [TypeError] at the first page of the stub that holds
    an item without a destination name. *)
Lemma exec_enumerate_unnamed (pages : nat → list media) (n extra i : nat)
    (acc : list coroutine) (w : world) :
  stub_pages srv a pages (i + n) → 1 ≤ i →
  (∀ j, i ≤ j ≤ i + n → pages j ≠ []) →
  ¬ Forall (named a) (pages (i + n)) →
  ∃ n', n' ≤ n ∧
    exec srv (enumerate (S n + extra) a i acc) w =
    (Raised TypeError, extend_sent (GET ∘ page_url a <$> seq i (S n')) w).
Proof.
  revert i acc w. induction n as [|n IH]; intros i acc w Hstub Hi Hfull Hbad.
  - exists 0. split; [done|]. cbn [Nat.add].
    rewrite (exec_enumerate_stub pages (i + 0)) by (done || lia).
    rewrite Nat.add_0_r in Hbad.
    destruct (pages i) as [|m ms] eqn:Hpagei; [by destruct Hbad|].
    destruct (append_coroutines a (m :: ms) acc) as [e|acc'] eqn:Happ.
    + by apply append_coroutines_error in Happ as [-> _].
    + destruct (decide (Forall (named a) (m :: ms))) as [Hn|Hn]; [done|].
      exfalso. clear -Happ Hbad. revert acc Happ.
      induction (m :: ms) as [|m' ms' IHms]; intros acc Happ; [by destruct Hbad|].
      cbn [append_coroutines] in Happ.
      destruct (destination_filename a m') as [e|d] eqn:Hd; [done|].
      apply Hbad, Forall_cons. split.
      * unfold named, coroutine_of. rewrite Hd. by eexists.
      * destruct (decide (Forall (named a) ms')) as [|Hms']; [done|].
        exfalso. by eapply IHms.
  - cbn [Nat.add]. rewrite (exec_enumerate_stub pages (i + S n)) by (done || lia).
    destruct (pages i) as [|m ms] eqn:Hpagei; [by destruct (Hfull i); [lia|]|].
    destruct (append_coroutines a (m :: ms) acc) as [e|acc'] eqn:Happ.
    + apply append_coroutines_error in Happ as [-> _].
      exists 0. split; [lia|done].
    + replace (i + S n) with (S i + n) in * by lia.
      destruct (IH (S i) acc' (add_sent (GET (page_url a i)) w))
        as (n' & Hn' & Heq); [done|lia|intros j ?; apply Hfull; lia|done|].
      cbn [Nat.add] in Heq. rewrite Heq.
      exists (S n'). split; [lia|]. f_equal.
      unfold add_sent, extend_sent. simpl. by rewrite <- app_assoc.
Qed.

End Pagination.

Section Orchestrator.

Context `{Lib} (srv : server) (a : args).

(** C3 (amended).  Against a page fetcher stub whose first page does not
    show the password challenge, whose pages 1 to [k] are not empty and
    whose page [k+1] is empty, and whose items all have a destination name,
    the run requests the pages 1, 2, ..., [k+1] in this order, one request
    each, and nothing else; it then awaits the downloads of exactly the items
    of pages 1 to [k] in page order, one coroutine per item.  Any fuel from
    [k+1] on is enough for the page loop to end. *)
Theorem enumeration_collects_pages (pages : nat → list media) (k extra : nat)
    (w : world) :
  stub_pages srv a pages (S k) →
  (∀ i, 1 ≤ i ≤ k → pages i ≠ []) →
  pages (S k) = [] →
  Forall (named a) (items_of pages 1 k) →
  ∃ cs w',
    exec srv (collect (S k + extra) a) w = (Returned cs, w') ∧
    Run.launch srv (S k + extra) a w =
      Some (Run.Downloading
              (Sched.gather_with_concurrency 4 (run_coroutine <$> cs) w')) ∧
    c_media <$> cs = items_of pages 1 k ∧
    cs = omap (coroutine_of a) (items_of pages 1 k) ∧
    sent w' = sent w ++ (GET ∘ page_url a <$> seq 1 (S k)).
Proof.
  intros Hstub Hfull Hend Hnamed.
  destruct (launch_eq srv a (S k + extra) w) as (w1 & Hs & _ & _ & Heq).
  unfold Run.launch. rewrite Heq.
  rewrite (exec_enumerate_pages srv a pages k extra 1 [] w1);
    [|done|done|intros j ?; apply Hfull; lia|done|done].
  eexists _, _. split; [done|]. split; [done|].
  split; [by apply media_of_coroutines|]. split; [done|].
  simpl. by rewrite Hs.
Qed.

(** C10. An item whose file name has no extension and whose content type
    [guess_extension] does not know has no destination: building it raises
    [TypeError].  When such an item stands on page [j] of a page fetcher
    stub, the run ends with that error and exit status 1 while it is still
    enumerating: it has requested pages only, page [j] at the latest, and no
    download was dispatched. *)
Theorem unknown_content_type_aborts (pages : nat → list media) (j extra : nat)
    (m : media) (w : world) :
  (os_path_splitext (media_filename m)).2 = "" →
  guess_extension (contentType m) = None →
  stub_pages srv a pages j → 1 ≤ j →
  (∀ i, 1 ≤ i ≤ j → pages i ≠ []) →
  m ∈ pages j →
  destination_filename a m = inl TypeError ∧
  ∃ w' n, n ≤ j ∧
    exec srv (collect (j + extra) a) w = (Raised TypeError, w') ∧
    Run.launch srv (j + extra) a w = Some (Run.Exited 1 w' []) ∧
    sent w' = sent w ++ (GET ∘ page_url a <$> seq 1 n).
Proof.
  intros Hext Hguess Hstub Hj Hfull Hm.
  assert (destination_filename a m = inl TypeError) as Hd.
  { unfold destination_filename. by rewrite Hext, Hguess. }
  split; [done|].
  assert (¬ Forall (named a) (pages j)) as Hbad.
  { intros Hall. rewrite Forall_forall in Hall.
    destruct (Hall m Hm) as [c Hc]. unfold coroutine_of in Hc.
    by rewrite Hd in Hc. }
  destruct j as [|n]; [lia|].
  destruct (launch_eq srv a (S n + extra) w) as (w1 & Hs & _ & _ & Heq).
  destruct (exec_enumerate_unnamed srv a pages n extra 1 [] w1)
    as (n' & Hn' & Hex); [done|done|intros i ?; apply Hfull; lia|done|].
  unfold Run.launch. rewrite Heq, Hex.
  exists (extend_sent (GET ∘ page_url a <$> seq 1 (S n')) w1), (S n').
  split; [lia|]. split; [done|]. split; [done|]. simpl. by rewrite Hs.
Qed.

End Orchestrator.

(** ** The bounded scheduler *)

Section Scheduler.

Context (srv : server).

Lemma active_insert (ts : list Sched.task) (i : nat) (t t' : Sched.task) :
  ts !! i = Some t →
  Sched.active (<[i := t']> ts) + (if Sched.is_running t then 1 else 0) =
  Sched.active ts + (if Sched.is_running t' then 1 else 0).
Proof.
  unfold Sched.active. revert i.
  induction ts as [|t0 ts IH]; intros [|i] Hi; simplify_eq/=; [lia|].
  specialize (IH i Hi). lia.
Qed.

Lemma active_waiting (ps : list (prog unit)) :
  Sched.active (Sched.Waiting <$> ps) = 0.
Proof. unfold Sched.active. by induction ps. Qed.

(** The semaphore invariant: the free permits and the coroutines inside
    [async with semaphore] add up to the initial value. *)
Lemma step_permits (n : nat) (l : Sched.label) (s s' : Sched.state) :
  Sched.permits s + Sched.active (Sched.tasks s) = n →
  Sched.step srv l s = Some s' →
  Sched.permits s' + Sched.active (Sched.tasks s') = n.
Proof.
  intros Hinv Hstep. destruct l as [i|i]; simpl in Hstep.
  - destruct (Sched.tasks s !! i) as [[p|p|r]|] eqn:Hi; try done.
    destruct (Sched.permits s) as [|k] eqn:Hk; [done|].
    injection Hstep as <-. simpl.
    pose proof (active_insert _ _ _ (Sched.Running p) Hi) as Ha.
    simpl in Ha. lia.
  - destruct (Sched.tasks s !! i) as [[p|p|r]|] eqn:Hi; try done.
    destruct p as [[]|e| |X op k]; try done.
    + injection Hstep as <-. simpl.
      pose proof (active_insert _ _ _ (Sched.Done None) Hi) as Ha.
      simpl in Ha. lia.
    + injection Hstep as <-. simpl.
      pose proof (active_insert _ _ _ (Sched.Done (Some e)) Hi) as Ha.
      simpl in Ha. lia.
    + destruct (perform srv op (Sched.now s)) as [res w'].
      injection Hstep as <-. simpl.
      match goal with |- context [<[i := ?t]> _] =>
        pose proof (active_insert _ _ _ t Hi) as Ha end.
      simpl in Ha. lia.
Qed.

Lemma steps_permits (n : nat) (ls : list Sched.label) (s s' : Sched.state) :
  Sched.permits s + Sched.active (Sched.tasks s) = n →
  Sched.steps srv ls s = Some s' →
  Sched.permits s' + Sched.active (Sched.tasks s') = n.
Proof.
  revert s. induction ls as [|l ls IH]; intros s Hinv Hsteps; simpl in Hsteps.
  - by injection Hsteps as <-.
  - destruct (Sched.step srv l s) as [s1|] eqn:Hstep; [|done].
    eapply IH; [|done]. by eapply step_permits.
Qed.

(** A step of a task leaves the other tasks as they are. *)
Lemma step_others (l : Sched.label) (s s' : Sched.state) (j : nat) :
  Sched.step srv l s = Some s' → j ≠ target l →
  Sched.tasks s' !! j = Sched.tasks s !! j.
Proof.
  intros Hstep Hj. destruct l as [i|i]; simpl in *.
  - destruct (Sched.tasks s !! i) as [[p|p|r]|]; try done.
    destruct (Sched.permits s); [done|]. injection Hstep as <-. simpl.
    by rewrite list_lookup_insert_ne.
  - destruct (Sched.tasks s !! i) as [[p|p|r]|]; try done.
    destruct p as [[]|e| |X op k]; try done.
    + injection Hstep as <-. simpl. by rewrite list_lookup_insert_ne.
    + injection Hstep as <-. simpl. by rewrite list_lookup_insert_ne.
    + destruct (perform srv op (Sched.now s)) as [res w'].
      injection Hstep as <-. simpl. by rewrite list_lookup_insert_ne.
Qed.

(** While the run is downloading, its steps are steps of the scheduler. *)
Lemma run_steps_downloading (ls : list Run.label) (s0 s : Sched.state) :
  Run.steps srv ls (Run.Downloading s0) = Some (Run.Downloading s) →
  ∃ ls', Sched.steps srv ls' s0 = Some s.
Proof.
  revert s0. induction ls as [|l ls IH]; intros s0 Hsteps; simpl in Hsteps.
  - injection Hsteps as <-. by exists [].
  - destruct l as [l|]; simpl in Hsteps.
    + destruct (Sched.step srv l s0) as [s1|] eqn:Hstep; [|done].
      simpl in Hsteps. destruct (IH _ Hsteps) as [ls' Hls'].
      exists (l :: ls'). simpl. by rewrite Hstep.
    + destruct (Sched.failure s0); [by destruct ls|].
      destruct (forallb _ _); [by destruct ls|done].
Qed.

End Scheduler.

Section Bound.

Context (srv : server).

(** C6. However the event loop interleaves the coroutines that
    [gather_with_concurrency n] was given, the number of coroutines that are
    inside [async with semaphore] (started and not finished) never exceeds
    [n].  While [n] of them are inside, no waiting coroutine is let in.  A
    coroutine whose body has come to its end leaves the semaphore at its next
    step, which makes it [Done] and frees its slot; whichever coroutine of
    the backlog the event loop wakes next enters at once, and the number of
    active ones is back where it was.  The orchestrator passes [n = 4], so no reachable state of a
    run has more than four downloads active. *)
Theorem at_most_n_fetches_active :
  (∀ (n : nat) (ps : list (prog unit)) (w : world) (ls : list Sched.label)
     (s : Sched.state),
     Sched.steps srv ls (Sched.gather_with_concurrency n ps w) = Some s →
     Sched.active (Sched.tasks s) ≤ n ∧
     (∀ i r s',
        Sched.step srv (Sched.Resume i) s = Some s' →
        Sched.tasks s' !! i = Some (Sched.Done r) →
        Sched.active (Sched.tasks s') < n ∧
        ∀ j p, Sched.tasks s' !! j = Some (Sched.Waiting p) →
          ∃ s'', Sched.step srv (Sched.Acquire j) s' = Some s'' ∧
                 Sched.tasks s'' !! j = Some (Sched.Running p)) ∧
     (∀ j p,
        Sched.tasks s !! j = Some (Sched.Waiting p) →
        Sched.active (Sched.tasks s) = n →
        Sched.step srv (Sched.Acquire j) s = None) ∧
     (∀ i p r,
        Sched.tasks s !! i = Some (Sched.Running p) →
        ended p = Some r →
        ∃ s', Sched.step srv (Sched.Resume i) s = Some s' ∧
              Sched.tasks s' = <[i := Sched.Done r]> (Sched.tasks s) ∧
              S (Sched.active (Sched.tasks s')) = Sched.active (Sched.tasks s) ∧
              ∀ j q, Sched.tasks s !! j = Some (Sched.Waiting q) →
                ∃ s'', Sched.step srv (Sched.Acquire j) s' = Some s'' ∧
                       Sched.tasks s'' =
                         <[j := Sched.Running q]> (Sched.tasks s') ∧
                       Sched.active (Sched.tasks s'') =
                         Sched.active (Sched.tasks s))) ∧
  (∀ (L : Lib) (fuel : nat) (a : args) (w : world) (st0 : Run.state)
     (ls : list Run.label) (s : Sched.state),
     Run.launch srv fuel a w = Some st0 →
     Run.steps srv ls st0 = Some (Run.Downloading s) →
     Sched.active (Sched.tasks s) ≤ 4).
Proof.
  assert (∀ n ps w ls s,
    Sched.steps srv ls (Sched.gather_with_concurrency n ps w) = Some s →
    Sched.permits s + Sched.active (Sched.tasks s) = n) as Hinv.
  { intros n ps w ls s Hsteps. eapply steps_permits; [|done].
    simpl. rewrite active_waiting. lia. }
  split.
  - intros n ps w ls s Hsteps. pose proof (Hinv _ _ _ _ _ Hsteps) as Hs.
    split; [lia|]. split; [|split].
    + intros i r s' Hstep Hdone.
      pose proof (step_permits srv n _ _ _ Hs Hstep) as Hs'.
      assert (0 < Sched.permits s') as Hfree.
      { simpl in Hstep.
        destruct (Sched.tasks s !! i) as [[p|p|r']|] eqn:Hi; try done.
        destruct p as [[]|e| |X op k]; try done.
        - injection Hstep as <-. simpl. lia.
        - injection Hstep as <-. simpl. lia.
        - destruct (perform srv op (Sched.now s)) as [res w'].
          injection Hstep as <-. simpl in Hdone.
          rewrite list_lookup_insert_eq in Hdone
            by (by eapply lookup_lt_Some). done. }
      split; [lia|]. intros j p Hj. simpl. rewrite Hj.
      destruct (Sched.permits s') as [|k]; [lia|].
      eexists. split; [done|]. simpl.
      apply list_lookup_insert_eq. by eapply lookup_lt_Some.
    + intros j p Hj Hfull. simpl. rewrite Hj.
      destruct (Sched.permits s) as [|k] eqn:Hk; [done|lia].
    + intros i p r Hi Hend.
      assert (Sched.step srv (Sched.Resume i) s = Some (Sched.finish i r s))
        as Hstep.
      { simpl. rewrite Hi. destruct p as [[]|e| |X op k]; simplify_eq/=; done. }
      eexists. split; [exact Hstep|]. split; [done|].
      pose proof (active_insert _ _ _ (Sched.Done r) Hi) as Ha. simpl in Ha.
      split; [simpl; lia|]. intros j q Hj.
      assert (j ≠ i) as Hne by (intros ->; congruence).
      assert (Sched.tasks (Sched.finish i r s) !! j = Some (Sched.Waiting q))
        as Hj'.
      { simpl. by rewrite list_lookup_insert_ne. }
      eexists. split; [|split].
      * cbn [Sched.step]. rewrite Hj'. cbn [Sched.permits Sched.finish]. done.
      * done.
      * pose proof (active_insert _ _ _ (Sched.Running q) Hj') as Ha'.
        simpl in Ha'. simpl. lia.
  - intros L fuel a w st0 ls s Hlaunch Hsteps. unfold Run.launch in Hlaunch.
    destruct (exec srv (collect fuel a) w) as [[cs|e|] w']; simplify_eq.
    + apply run_steps_downloading in Hsteps as [ls' Hls'].
      pose proof (Hinv _ _ _ _ _ Hls'). lia.
    + by destruct ls.
Qed.

End Bound.

(** ** Failures of downloads *)

Section Failures.

Context `{Lib} (srv : server).

Lemma never_exits_bind {A B} (p : prog A) (f : A → prog B) :
  never_exits p → (∀ a, never_exits (f a)) → never_exits (bind p f).
Proof.
  intros Hp Hf. induction p as [a|e| |X op k IH]; simpl in *; try done.
  intros x. by apply IH.
Qed.

Lemma never_exits_perform {X} (op : effect X) : never_exits (perform_ op).
Proof. done. Qed.

Lemma never_exits_write_comments (f : string) (cs : list comment) :
  never_exits (write_comments f cs).
Proof.
  induction cs as [|c cs IH]; [done|]. cbn [write_comments].
  apply never_exits_bind; [by destruct (isDeleted c)|done].
Qed.

Lemma never_exits_write_chunks (f : string) (chunks : list string) :
  never_exits (write_chunks f chunks).
Proof.
  induction chunks as [|c cs IH]; [done|]. cbn [write_chunks].
  by apply never_exits_bind.
Qed.

Lemma never_exits_save_comments (d : string) (cs : list comment) :
  never_exits (save_comments d cs).
Proof.
  unfold save_comments. apply never_exits_bind; [done|]. intros _.
  apply never_exits_bind; [apply never_exits_write_comments|done].
Qed.

Lemma never_exits_write_media (url d : string) : never_exits (write_media url d).
Proof.
  unfold write_media. apply never_exits_bind; [done|]. intros _.
  apply never_exits_bind; [done|]. intros r.
  apply never_exits_bind.
  { unfold raise_for_status. by case_bool_decide. }
  intros _. apply never_exits_bind; [|done].
  unfold iter_chunked_into.
  apply never_exits_bind; [apply never_exits_write_chunks|].
  intros _. by destruct (r_complete r).
Qed.

Lemma never_exits_download_media (url d : string) (m : media) (v : bool) :
  never_exits (download_media url d m v).
Proof.
  unfold download_media. apply never_exits_bind; [done|]. intros present.
  destruct (negb present).
  - apply never_exits_bind; [by destruct v|]. intros _.
    apply never_exits_bind; [apply never_exits_write_media|]. intros _.
    destruct (comments m); [done|apply never_exits_save_comments].
  - by destruct v.
Qed.

Lemma perform_error_status {X} (op : effect X) (w w' : world) (e : exn) :
  perform srv op w = (inl e, w') → Run.exit_status e ≠ 0.
Proof.
  destruct op; simpl; try done.
  - destruct (fs w !! p); intros [=]; by subst.
  - destruct (fs w !! src); intros [=]; by subst.
  - unfold send. destruct (srv _ _); intros [=]; by subst.
  - unfold send. destruct (srv _ _); intros [=]; by subst.
Qed.

Lemma task_ok_mono (P Q : Prop) (t : Sched.task) :
  (P → Q) → task_ok P t → task_ok Q t.
Proof.
  intros HPQ. destruct t as [p|p|[e|]]; simpl; [done|done| |done].
  intros [? ?]. auto.
Qed.

Lemma step_ok (l : Sched.label) (s s' : Sched.state) :
  sched_ok s → Sched.step srv l s = Some s' → sched_ok s'.
Proof.
  intros [Hts Hf] Hstep. destruct l as [i|i]; simpl in Hstep.
  - destruct (Sched.tasks s !! i) as [[p|p|r]|] eqn:Hi; try done.
    destruct (Sched.permits s); [done|]. injection Hstep as <-.
    split; [|done]. simpl. apply Forall_insert; [done|].
    by apply (Forall_lookup_1 _ _ _ _ Hts Hi).
  - destruct (Sched.tasks s !! i) as [[p|p|r]|] eqn:Hi; try done.
    pose proof (Forall_lookup_1 _ _ _ _ Hts Hi) as Hp. simpl in Hp.
    destruct p as [[]|e| |X op k]; try done.
    + injection Hstep as <-. split; simpl.
      * apply Forall_insert; [|done].
        eapply Forall_impl; [done|]. intros t. apply task_ok_mono.
        by destruct (Sched.failure s).
      * intros e. destruct (Sched.failure s) eqn:Hfs; [|done].
        intros [= <-]. by apply Hf.
    + injection Hstep as <-. split; simpl.
      * apply Forall_insert.
        -- eapply Forall_impl; [done|]. intros t. apply task_ok_mono.
           by destruct (Sched.failure s).
        -- split; [done|]. by destruct (Sched.failure s).
      * intros e'. destruct (Sched.failure s) eqn:Hfs.
        -- intros [= <-]. by apply Hf.
        -- by intros [= <-].
    + destruct (perform srv op (Sched.now s)) as [[e|x] w'] eqn:Hop;
        injection Hstep as <-; (split; [|done]); simpl;
        (apply Forall_insert; [done|]); simpl.
      * by eapply perform_error_status.
      * apply Hp.
Qed.

Lemma steps_ok (ls : list Sched.label) (s s' : Sched.state) :
  sched_ok s → Sched.steps srv ls s = Some s' → sched_ok s'.
Proof.
  revert s. induction ls as [|l ls IH]; intros s Hok Hsteps; simpl in Hsteps.
  - by injection Hsteps as <-.
  - destruct (Sched.step srv l s) as [s1|] eqn:Hstep; [|done].
    eapply IH; [|done]. by eapply step_ok.
Qed.

Lemma gather_ok (n : nat) (cs : list coroutine) (w : world) :
  sched_ok (Sched.gather_with_concurrency n (run_coroutine <$> cs) w).
Proof.
  split; [|done]. simpl. rewrite <- list_fmap_compose.
  apply Forall_fmap, Forall_true. intros c. simpl.
  apply never_exits_download_media.
Qed.

End Failures.

Section FailFast.

Context `{Lib} (srv : server).

(** C5 (amended).  In every state that the downloads of a run can reach:
    a step of one coroutine changes no other coroutine, so a failure cancels
    nothing; a coroutine that has failed has given [gather] an exception to
    pass on; as soon as there is one, the orchestrator can be resumed,
    whatever the other coroutines are doing, and the run then ends at once
    with a non-zero exit status, leaving them as they are; and a run that
    ends with status 0 has seen every coroutine return without failure. *)
Theorem first_failure_ends_run (n : nat) (cs : list coroutine) (w : world)
    (ls : list Sched.label) (s : Sched.state) :
  Sched.steps srv ls
    (Sched.gather_with_concurrency n (run_coroutine <$> cs) w) = Some s →
  (∀ l s' j, Sched.step srv l s = Some s' → j ≠ target l →
     Sched.tasks s' !! j = Sched.tasks s !! j) ∧
  (∀ i e, Sched.tasks s !! i = Some (Sched.Done (Some e)) →
     is_Some (Sched.failure s)) ∧
  (∀ e, Sched.failure s = Some e →
     Run.exit_status e ≠ 0 ∧
     Run.step srv Run.Main (Run.Downloading s) =
       Some (Run.Exited (Run.exit_status e) (Sched.now s) (Sched.tasks s))) ∧
  (∀ w' ts, Run.step srv Run.Main (Run.Downloading s) =
       Some (Run.Exited 0 w' ts) →
     Forall (λ t, t = Sched.Done None) ts).
Proof.
  intros Hsteps.
  pose proof (steps_ok srv _ _ _ (gather_ok n cs w) Hsteps) as [Hts Hf].
  split; [intros l s' j; apply step_others|]. split; [|split].
  - intros i e Hi. by destruct (Forall_lookup_1 _ _ _ _ Hts Hi).
  - intros e He. split; [by apply Hf|]. simpl. by rewrite He.
  - intros w' ts. simpl. destruct (Sched.failure s) as [e|] eqn:He.
    + intros [= Hst _ _]. by destruct (Hf e).
    + destruct (forallb _ _) eqn:Hall; [|done]. intros [= _ <-].
      rewrite forallb_forall in Hall. apply Forall_forall. intros t Ht.
      pose proof (proj1 (Forall_forall _ _) Hts t Ht) as Hok.
      apply list_elem_of_In, Hall in Ht.
      destruct t as [p|p|[e|]]; try done.
      destruct Hok as [_ [? ?]]. done.
Qed.

End FailFast.

(** * Further properties of the code *)

Section Fetching.

Context `{Lib} (srv : server).

Lemma exec_download_media_present (url destination_filename : string)
    (m : media) (v : bool) (w : world) :
  is_Some (fs w !! destination_filename) →
  exec srv (download_media url destination_filename m v) w =
  (Returned (),
   if v then add_stdout (uuid m +:+ " already downloaded ✔️") w else w).
Proof.
  intros Hfs. unfold download_media.
  rewrite exec_bind, exec_perform. cbn [perform].
  rewrite bool_decide_eq_true_2 by done. cbn [negb]. by destruct v.
Qed.

(** The run of [download_media] when the download is delivered. *)
Lemma exec_download_media_delivered (url destination_filename : string)
    (m : media) (v : bool) (w : world) (r : response) :
  fs w !! destination_filename = None →
  srv (sent w) (GET url) = Some r → delivered r →
  ∃ w', exec srv (download_media url destination_filename m v) w =
          (Returned (), w') ∧
        sent w' = sent w ++ [GET url] ∧
        stderr w' = stderr w ∧
        fs w' =
          (match comments m with
           | [] => λ files, files
           | _ :: _ =>
               stored (comment_filename destination_filename +:+ ".tmp")
                 (comment_filename destination_filename)
                 (rendered (comments m))
           end)
            (stored (destination_filename +:+ ".tmp") destination_filename
               (Str.concat (r_chunks r)) (fs w)).
Proof.
  intros Hfs Hsrv Hr. rewrite exec_download_media_absent by done.
  rewrite exec_bind.
  rewrite (exec_write_media srv url destination_filename _ r)
    by (by destruct v).
  destruct (comments m) as [|c cs] eqn:Hcs.
  - eexists. split; [done|]. by destruct v.
  - rewrite exec_save_comments. eexists. split; [done|]. by destruct v.
Qed.

(** X1. When the destination is not there yet and the download is delivered,
    [download_media] returns after exactly one request.  For an item without
    comments the destination then holds the whole body, its temporary file is
    gone and no other file has changed.  For an item with comments (deleted
    or not) the same holds, and the comment file holds the rendering and its
    temporary file is gone, as long as the comment file and its temporary
    file are other paths than the destination and its temporary file.  When
    the comment file is the destination itself (a media file named [*.md]),
    the rendering of the comments replaces the body that was downloaded. *)
Theorem download_media_fetches (url destination_filename : string)
    (m : media) (v : bool) (w : world) (r : response) :
  fs w !! destination_filename = None →
  srv (sent w) (GET url) = Some r → delivered r →
  ∃ w', exec srv (download_media url destination_filename m v) w =
          (Returned (), w') ∧
        sent w' = sent w ++ [GET url] ∧
        stderr w' = stderr w ∧
        (comments m = [] →
           fs w' !! destination_filename = Some (Str.concat (r_chunks r)) ∧
           fs w' !! (destination_filename +:+ ".tmp") = None ∧
           ∀ p, p ≠ destination_filename →
                p ≠ destination_filename +:+ ".tmp" →
                fs w' !! p = fs w !! p) ∧
        (comments m ≠ [] →
           comment_filename destination_filename ≠ destination_filename →
           comment_filename destination_filename +:+ ".tmp" ≠
             destination_filename →
           comment_filename destination_filename ≠
             destination_filename +:+ ".tmp" →
           fs w' !! destination_filename = Some (Str.concat (r_chunks r)) ∧
           fs w' !! (destination_filename +:+ ".tmp") = None ∧
           fs w' !! comment_filename destination_filename =
             Some (rendered (comments m)) ∧
           fs w' !! (comment_filename destination_filename +:+ ".tmp") = None ∧
           ∀ p, p ≠ destination_filename →
                p ≠ destination_filename +:+ ".tmp" →
                p ≠ comment_filename destination_filename →
                p ≠ comment_filename destination_filename +:+ ".tmp" →
                fs w' !! p = fs w !! p) ∧
        (comments m ≠ [] →
           comment_filename destination_filename = destination_filename →
           fs w' !! destination_filename = Some (rendered (comments m))).
Proof.
  intros Hfs Hsrv Hr.
  destruct (exec_download_media_delivered url destination_filename m v w r)
    as (w' & Hex & Hsent & Herr & Hfs'); [done..|].
  pose proof (tmp_ne destination_filename) as Hd.
  pose proof (tmp_ne (comment_filename destination_filename)) as Hc.
  exists w'. split; [done|]. split; [done|]. split; [done|].
  rewrite Hfs'. unfold stored. split; [|split].
  - intros ->. split; [apply lookup_insert_eq|]. split.
    + rewrite lookup_insert_ne by done. apply lookup_delete_eq.
    + intros p ??. by rewrite lookup_insert_ne, lookup_delete_ne.
  - destruct (comments m) as [|c0 cs]; [done|]. intros _ H1 H2 H3.
    split; [|split; [|split; [|split]]].
    + by rewrite lookup_insert_ne, lookup_delete_ne, lookup_insert_eq.
    + rewrite lookup_insert_ne by done.
      destruct (decide (comment_filename destination_filename +:+ ".tmp" =
                        destination_filename +:+ ".tmp")) as [->|Hne].
      * apply lookup_delete_eq.
      * rewrite lookup_delete_ne, lookup_insert_ne by done.
        apply lookup_delete_eq.
    + apply lookup_insert_eq.
    + rewrite lookup_insert_ne by done. apply lookup_delete_eq.
    + intros p ????.
      by rewrite lookup_insert_ne, lookup_delete_ne, lookup_insert_ne,
        lookup_delete_ne.
  - destruct (comments m) as [|c0 cs]; [done|]. intros _ Heq.
    rewrite Heq. apply lookup_insert_eq.
Qed.

Lemma exec_write_media_fails (url destination_filename : string) (w : world)
    (e : exn) :
  download_failure (srv (sent w) (GET url)) = Some e →
  exec srv (write_media url destination_filename) w =
  (Raised e,
   add_sent (GET url)
     (set_fs (insert (destination_filename +:+ ".tmp")
                (received (srv (sent w) (GET url)))) w)).
Proof.
  intros He. unfold write_media.
  rewrite exec_bind, exec_perform. cbn [perform].
  rewrite exec_bind, exec_perform. cbn [perform]. unfold send.
  cbn [sent set_fs]. unfold download_failure, received in *.
  destruct (srv (sent w) (GET url)) as [r|]; [|by injection He as <-].
  rewrite exec_bind. unfold raise_for_status.
  case_bool_decide; [by injection He as <-|]. cbn [exec].
  rewrite exec_bind. unfold iter_chunked_into.
  rewrite exec_bind, (exec_write_chunks srv _ _ _ "")
    by (simpl; apply lookup_insert_eq).
  destruct (r_complete r); [done|]. injection He as <-. cbn [exec].
  f_equal. unfold add_sent, set_fs. cbn. f_equal.
  by rewrite insert_insert_eq.
Qed.

(** X2. When the download fails (no connection, a status from 400 on, or a
    body that breaks off), [download_media] raises that error after its one
    request: the destination is still absent, the temporary file holds what
    was received (nothing unless the body broke off), no other file has
    changed, and [save_comments] was not called. *)
Theorem failed_download_leaves_only_tmp (url destination_filename : string)
    (m : media) (v : bool) (w : world) (e : exn) :
  fs w !! destination_filename = None →
  download_failure (srv (sent w) (GET url)) = Some e →
  ∃ w', exec srv (download_media url destination_filename m v) w =
          (Raised e, w') ∧
        sent w' = sent w ++ [GET url] ∧
        fs w' = <[destination_filename +:+ ".tmp" :=
                    received (srv (sent w) (GET url))]> (fs w) ∧
        fs w' !! destination_filename = None.
Proof.
  intros Hfs He. rewrite exec_download_media_absent by done.
  rewrite exec_bind, (exec_write_media_fails _ _ _ e) by (by destruct v).
  eexists. split; [done|]. split; [by destruct v|].
  assert (sent (if v then add_stdout ("Downloading " +:+ uuid m +:+ " ⏳") w else w)
          = sent w) as -> by (by destruct v).
  split; [by destruct v|]. simpl.
  rewrite lookup_insert_ne by apply tmp_ne. by destruct v.
Qed.

(** X3. After a run of [download_media] that was delivered, a second run for
    the same destination (whatever its URL, item or verbosity) returns
    without a request and without touching a file, provided the temporary
    file of the comments is not the destination itself. *)
Theorem download_media_again_is_skipped (url url' destination_filename : string)
    (m m' : media) (v v' : bool) (w : world) (r : response) :
  fs w !! destination_filename = None →
  srv (sent w) (GET url) = Some r → delivered r →
  comment_filename destination_filename +:+ ".tmp" ≠ destination_filename →
  ∃ w1, exec srv (download_media url destination_filename m v) w =
          (Returned (), w1) ∧
        exec srv (download_media url' destination_filename m' v') w1 =
          (Returned (),
           if v' then add_stdout (uuid m' +:+ " already downloaded ✔️") w1
           else w1).
Proof.
  intros Hfs Hsrv Hr Hne.
  destruct (exec_download_media_delivered url destination_filename m v w r)
    as (w1 & Hex & _ & _ & Hfs1); [done..|].
  exists w1. split; [done|]. apply exec_download_media_present.
  rewrite Hfs1. unfold stored. destruct (comments m).
  - rewrite lookup_insert_eq. by eexists.
  - destruct (decide (comment_filename destination_filename = destination_filename))
      as [->|Hc].
    + rewrite lookup_insert_eq. by eexists.
    + rewrite lookup_insert_ne, lookup_delete_ne, lookup_insert_eq by done.
      by eexists.
Qed.

End Fetching.

Section Cleanup.

Context `{Lib} (srv : server).

Lemma lookup_foldl_delete (files : list string) (m : gmap string string)
    (p : string) :
  foldl (λ m f, delete f m) m files !! p =
  if decide (p ∈ files) then None else m !! p.
Proof.
  revert m. induction files as [|f files IH]; intros m; cbn [foldl].
  - by rewrite decide_False by apply not_elem_of_nil.
  - rewrite IH. destruct (decide (p ∈ f :: files)) as [Hin|Hnin].
    + destruct (decide (p ∈ files)); [done|].
      apply elem_of_cons in Hin as [->|?]; [apply lookup_delete_eq|done].
    + rewrite decide_False by (intros ?; apply Hnin; by right).
      rewrite lookup_delete_ne; [done|]. intros ->. apply Hnin. by left.
Qed.

(** What the pattern of the script matches in a directory whose name has no
    star. *)
Lemma glob_match_tmp (dir name : string) :
  Str.contains "*" dir = false →
  glob_match (dir +:+ "/*.tmp") (dir +:+ "/" +:+ name) =
  Str.endswith ".tmp" name && negb (Str.contains "/" name) &&
  negb (Str.startswith "." name).
Proof.
  intros Hdir. unfold glob_match.
  replace (dir +:+ "/*.tmp") with ((dir +:+ "/") +:+ String "*"%char ".tmp")
    by (by rewrite app_assoc_str).
  rewrite split_char_prefix
    by (by rewrite (contains_char_app "*"%char), Hdir).
  change (Str.split (String "*"%char "") ".tmp") with [".tmp"].
  rewrite <- (app_assoc_str dir "/" name).
  rewrite startswith_app, drop_app. cbn [andb].
  destruct (Str.endswith ".tmp" name) eqn:Hend; [|done].
  by rewrite bool_decide_eq_true_2 by (by apply endswith_length).
Qed.

(** The files after the start of [async_main], in terms of [glob_match]. *)
Lemma exec_startup_fs (a : args) (w : world) :
  ∃ w', exec srv (startup a) w = (Returned (), w') ∧
        sent w' = sent w ∧ stdout w' = stdout w ∧ stderr w' = stderr w ∧
        ∀ p, fs w' !! p =
             if glob_match (os_path_join (destination_directory a) "*.tmp") p
             then None else fs w !! p.
Proof.
  unfold startup. rewrite exec_bind, exec_perform. cbn [perform].
  rewrite exec_bind, exec_perform. cbn [perform].
  rewrite exec_unlink_all.
  - eexists. split; [done|]. repeat split. intros p. simpl.
    rewrite lookup_foldl_delete.
    set (pattern := os_path_join (destination_directory a) "*.tmp").
    destruct (glob_match pattern p) eqn:Hmatch.
    + case_decide as Hp; [done|].
      destruct (fs w !! p) as [c|] eqn:Hfs; [|done]. destruct Hp.
      apply list_elem_of_filter. split; [done|].
      apply list_elem_of_fmap. exists (p, c). split; [done|].
      by apply elem_of_map_to_list.
    + case_decide as Hp; [|done].
      apply list_elem_of_filter in Hp as [Hp _]. congruence.
  - apply NoDup_filter, NoDup_fst_map_to_list.
  - intros f [_ Hf]%list_elem_of_filter.
    apply list_elem_of_fmap in Hf as [[f' c] [-> Hf]].
    apply elem_of_map_to_list in Hf. by exists c.
Qed.

(** X4. In a destination directory that holds regular files only, whose name
    is not empty and has none of the characters that [glob] reads as a
    pattern, and that [os.path.join] joins to a file name with a slash, the
    start of [async_main] returns without sending or printing anything.
    Afterwards every file of the directory whose name ends in [.tmp] and does
    not begin with a dot is gone; every file whose name does not end in
    [.tmp], or begins with a dot, is as before; and no file has appeared. *)
Theorem startup_sweeps_tmp_files (a : args) (w : world) :
  destination_directory a ≠ "" →
  has_magic (destination_directory a) = false →
  os_path_join (destination_directory a) "*.tmp" =
    destination_directory a +:+ "/*.tmp" →
  flat (destination_directory a) w = true →
  ∃ w', exec srv (startup a) w = (Returned (), w') ∧
        sent w' = sent w ∧ stdout w' = stdout w ∧ stderr w' = stderr w ∧
        (∀ name,
           Str.contains "/" name = false →
           Str.startswith "." name = false →
           Str.endswith ".tmp" name = true →
           fs w' !! (destination_directory a +:+ "/" +:+ name) = None) ∧
        (∀ name,
           Str.endswith ".tmp" name = false ∨ Str.startswith "." name = true →
           fs w' !! (destination_directory a +:+ "/" +:+ name) =
           fs w !! (destination_directory a +:+ "/" +:+ name)) ∧
        (∀ p, fs w !! p = None → fs w' !! p = None).
Proof.
  intros _ Hmagic Hjoin _.
  assert (Str.contains "*" (destination_directory a) = false) as Hstar.
  { unfold has_magic in Hmagic.
    by apply orb_false_iff in Hmagic as [[? _]%orb_false_iff _]. }
  destruct (exec_startup_fs a w) as (w' & Hex & Hsent & Hout & Herr & Hfs).
  rewrite Hjoin in Hfs.
  exists w'. split; [done|]. split; [done|]. split; [done|]. split; [done|].
  split; [|split].
  - intros name Hslash Hdot Hend.
    by rewrite Hfs, glob_match_tmp, Hend, Hslash, Hdot.
  - intros name Hname. rewrite Hfs, glob_match_tmp by done.
    destruct Hname as [-> | ->]; [done|]. by rewrite andb_false_r.
  - intros p Hp. rewrite Hfs, Hp. by destruct (glob_match _ _).
Qed.

End Cleanup.

Section Progress.

Context (srv : server).










End Progress.

Section Completion.

Context `{Lib} (srv : server).






End Completion.

Section Monotone.

Context (srv : server).

Lemma step_keeps_done (l : Sched.label) (s s' : Sched.state) (i : nat)
    (r : option exn) :
  Sched.step srv l s = Some s' →
  Sched.tasks s !! i = Some (Sched.Done r) →
  Sched.tasks s' !! i = Some (Sched.Done r) ∧
  length (Sched.tasks s') = length (Sched.tasks s) ∧
  ∀ e, Sched.failure s = Some e → Sched.failure s' = Some e.
Proof.
  intros Hstep Hi. destruct l as [j|j]; simpl in Hstep.
  - destruct (Sched.tasks s !! j) as [[p|p|r']|] eqn:Hj; try done.
    destruct (Sched.permits s); [done|]. injection Hstep as <-. simpl.
    rewrite length_insert. split; [|done].
    rewrite list_lookup_insert_ne; [done|]. intros ->. congruence.
  - destruct (Sched.tasks s !! j) as [[p|p|r']|] eqn:Hj; try done.
    assert (j ≠ i) by (intros ->; congruence).
    destruct p as [[]|e| |X op k]; try done.
    + injection Hstep as <-. simpl. rewrite length_insert.
      split; [by rewrite list_lookup_insert_ne|]. split; [done|].
      by intros e ->.
    + injection Hstep as <-. simpl. rewrite length_insert.
      split; [by rewrite list_lookup_insert_ne|]. split; [done|].
      by intros e' ->.
    + destruct (perform srv op (Sched.now s)) as [res w'].
      injection Hstep as <-. simpl. rewrite length_insert.
      split; [by rewrite list_lookup_insert_ne|done].
Qed.

(** X6. Whatever the event loop does next, a coroutine that has finished
    keeps its result and is not run again, the number of tasks stays the same,
    and the exception that [gather] passes on is never replaced by a later
    one. *)
Theorem finished_stays_finished (ls : list Sched.label) (s s' : Sched.state)
    (i : nat) (r : option exn) :
  Sched.steps srv ls s = Some s' →
  Sched.tasks s !! i = Some (Sched.Done r) →
  Sched.tasks s' !! i = Some (Sched.Done r) ∧
  length (Sched.tasks s') = length (Sched.tasks s) ∧
  ∀ e, Sched.failure s = Some e → Sched.failure s' = Some e.
Proof.
  revert s. induction ls as [|l ls IH]; intros s Hsteps Hi; simpl in Hsteps.
  - by injection Hsteps as <-.
  - destruct (Sched.step srv l s) as [s1|] eqn:Hstep; [|done].
    destruct (step_keeps_done _ _ _ _ _ Hstep Hi) as (H1 & H2 & H3).
    destruct (IH _ Hsteps H1) as (H4 & H5 & H6).
    split; [done|]. split; [congruence|]. intros e He. by apply H6, H3.
Qed.

(** X7. [gather_with_concurrency(0, ...)] with at least one coroutine hangs:
    no coroutine can pass the semaphore, no step is possible and the run
    never ends. *)
Theorem zero_permits_hang (ps : list (prog unit)) (w : world)
    (ls : list Run.label) (st : Run.state) :
  ps ≠ [] →
  Run.steps srv ls (Run.Downloading (Sched.gather_with_concurrency 0 ps w))
    = Some st →
  ls = [] ∧ st = Run.Downloading (Sched.gather_with_concurrency 0 ps w).
Proof.
  intros Hps Hsteps. destruct ls as [|l ls]; simpl in Hsteps.
  { by injection Hsteps as <-. }
  exfalso. destruct l as [[i|i]|]; simpl in Hsteps.
  - rewrite list_lookup_fmap in Hsteps. by destruct (ps !! i).
  - rewrite list_lookup_fmap in Hsteps. by destruct (ps !! i).
  - destruct ps as [|p ps]; done.
Qed.

End Monotone.

Lemma split_absent (sep s : string) :
  Str.contains sep s = false → Str.split sep s = [s].
Proof.
  unfold Str.split. induction s as [|c s IH]; [done|].
  cbn [Str.contains Str.split_go]. intros [Hpre Hrest]%orb_false_iff.
  by rewrite Hpre, IH.
Qed.

Section Protocol.

Context `{Lib} (srv : server) (a : args).

Lemma token_marker_absent (response_text : string) :
  Str.contains token_marker response_text = false →
  authenticity_token_of response_text = inl IndexError.
Proof. intros Habs. unfold authenticity_token_of. by rewrite split_absent. Qed.

Lemma listing_start_absent (response_text : string) :
  Str.contains listing_start response_text = false →
  listing_of response_text = inl IndexError.
Proof. intros Habs. unfold listing_of. by rewrite split_absent. Qed.

(** X8. When a password was given and the first page shows the challenge but
    not the token field, the run ends with [IndexError] and exit status 1
    after the request for page 1 alone: no login is posted. *)
Theorem missing_token_aborts (fuel : nat) (w : world) (r : response) :
  password_given a = true →
  challenged srv a w r →
  Str.contains token_marker (text_of r) = false →
  ∃ w', exec srv (collect (S fuel) a) w = (Raised IndexError, w') ∧
        Run.launch srv (S fuel) a w = Some (Run.Exited 1 w' []) ∧
        sent w' = sent w ++ [GET (page_url a 1)].
Proof.
  intros Hpw Hr Habs. unfold Run.launch.
  destruct (launch_eq srv a (S fuel) w) as (w1 & Hs & _ & _ & ->).
  rewrite (exec_enumerate_challenged srv a fuel w1 r)
    by (unfold challenged; by rewrite Hs).
  rewrite Hpw, token_marker_absent by done. cbn [negb lift bind exec].
  eexists. split; [done|]. split; [done|]. simpl. by rewrite Hs.
Qed.

(** X9. When the first page has no challenge and its listing cannot be read,
    the run ends with exit status 1 after that one request: with
    [IndexError] when the start marker of the listing is missing, and
    otherwise with [IndexError] or the [ValueError] of [json.loads]. *)
Theorem unreadable_page_aborts (fuel : nat) (w : world) (r : response) (e : exn) :
  srv (sent w) (GET (page_url a 1)) = Some r →
  r_complete r = true →
  Str.contains challenge_marker (text_of r) = false →
  listing_of (text_of r) = inl e →
  (e = IndexError ∨ e = ValueError) ∧
  (Str.contains listing_start (text_of r) = false → e = IndexError) ∧
  ∃ w', exec srv (collect (S fuel) a) w = (Raised e, w') ∧
        Run.launch srv (S fuel) a w = Some (Run.Exited 1 w' []) ∧
        sent w' = sent w ++ [GET (page_url a 1)].
Proof.
  intros Hsrv Hcomplete Hmarker Hlisting.
  assert (e = IndexError ∨ e = ValueError) as He.
  { unfold listing_of in Hlisting.
    destruct (_ !! 1); [|injection Hlisting as <-; by left].
    destruct (_ !! 0); [|injection Hlisting as <-; by left].
    destruct (json_loads _); [done|]. injection Hlisting as <-. by right. }
  split; [done|]. split.
  { intros Habs. rewrite listing_start_absent in Hlisting by done.
    by injection Hlisting as <-. }
  unfold Run.launch.
  destruct (launch_eq srv a (S fuel) w) as (w1 & Hs & _ & _ & ->).
  cbn [enumerate]. rewrite exec_bind, exec_perform. cbn [perform].
  unfold send. rewrite Hs, Hsrv. rewrite exec_bind. unfold text.
  rewrite Hcomplete. cbn [exec]. unfold text_of in *.
  rewrite Hmarker, andb_false_r, Hlisting. cbn [lift bind exec].
  eexists. split; [done|]. split; [by destruct He as [-> | ->]|].
  simpl. by rewrite Hs.
Qed.

End Protocol.

Section Login.

Context `{Lib} (srv : server) (a : args).

(** One turn of the loop that logs in: the page counter and the list of
    coroutines are as before. *)
Lemma exec_enumerate_login (fuel : nat) (w : world) (r r' : response)
    (authenticity_token : string) (acc : list coroutine) :
  password_given a = true →
  challenged srv a w r →
  authenticity_token_of (text_of r) = inr authenticity_token →
  srv (sent w ++ [GET (page_url a 1)]) (login_request a authenticity_token)
    = Some r' →
  Str.endswith "/login" (r_url_path r') = false →
  exec srv (enumerate (S fuel) a 1 acc) w =
  exec srv (enumerate fuel a 1 acc)
    (extend_sent [GET (page_url a 1); login_request a authenticity_token] w).
Proof.
  intros Hpw Hr Htoken Hpost Hpath.
  rewrite (exec_enumerate_challenged srv a fuel w r) by done.
  rewrite Hpw, Htoken. cbn [negb lift bind].
  rewrite exec_bind, exec_perform. cbn [perform]. unfold send.
  cbn [sent add_sent]. unfold login_request in Hpost. rewrite Hpost, Hpath.
  f_equal. unfold add_sent, extend_sent, login_request. cbn [fs sent stdout stderr].
  by rewrite <- app_assoc.
Qed.

(** X10. The page loop has no bound on logins: against a server that accepts
    every login but goes on showing the challenge on page 1, the loop is
    still running after any number of turns, each of which requests page 1
    and posts the login again; no coroutine is ever added. *)
Theorem login_loop_never_ends (authenticity_token : string) (fuel : nat)
    (acc : list coroutine) (w : world) :
  password_given a = true →
  keeps_challenging srv a authenticity_token →
  exec srv (enumerate fuel a 1 acc) w =
  (Unfinished,
   extend_sent
     (mjoin (replicate fuel
               [GET (page_url a 1); login_request a authenticity_token])) w).
Proof.
  intros Hpw Hsrv. revert w. induction fuel as [|fuel IH]; intros w.
  - simpl. by rewrite extend_sent_nil.
  - destruct (Hsrv (sent w)) as [(r & Hr1 & Hr2 & Hr3 & Hr4) _].
    destruct (Hsrv (sent w ++ [GET (page_url a 1)])) as [_ (r' & Hp1 & Hp2)].
    rewrite (exec_enumerate_login fuel w r r' authenticity_token) by done.
    rewrite IH, extend_sent_extend_sent. done.
Qed.

End Login.

Section Protected.

Context `{Lib} (srv : server) (a : args).

Lemma perform_later {X} (before : list request) (op : effect X) (w : world) :
  perform srv op (prepend_sent before w) =
  let '(res, w') := perform (later before srv) op w in
  (res, prepend_sent before w').
Proof.
  destruct op; simpl; try done.
  - by destruct (fs w !! p).
  - by destruct (fs w !! src).
  - unfold send, later. simpl. destruct (srv _ _);
      unfold add_sent, prepend_sent; simpl; by rewrite app_assoc.
  - unfold send, later. simpl. destruct (srv _ _);
      unfold add_sent, prepend_sent; simpl; by rewrite app_assoc.
Qed.

Lemma exec_later {A} (before : list request) (p : prog A) (w : world) :
  exec srv p (prepend_sent before w) =
  let '(o, w') := exec (later before srv) p w in (o, prepend_sent before w').
Proof.
  revert w. induction p as [x|e| |X op k IH]; intros w; simpl; try done.
  rewrite perform_later.
  destruct (perform (later before srv) op w) as [[e|x] w']; [done|]. apply IH.
Qed.

(** X11. Against an album behind a password whose login is accepted, the
    script requests page 1, posts the login once, requests page 1 again and
    then enumerates as for an open album: it collects one coroutine per item
    of pages 1 to [k], in page order. *)
Theorem accepted_login_enumerates (authenticity_token : string)
    (pages : nat → list media) (k extra : nat) (w : world) :
  password_given a = true →
  login_request a authenticity_token ∉ sent w →
  protected_album srv a authenticity_token pages (S k) →
  (∀ i, 1 ≤ i ≤ k → pages i ≠ []) →
  pages (S k) = [] →
  Forall (named a) (items_of pages 1 k) →
  ∃ cs w',
    exec srv (collect (S (S k) + extra) a) w = (Returned cs, w') ∧
    c_media <$> cs = items_of pages 1 k ∧
    sent w' = sent w ++
      [GET (page_url a 1); login_request a authenticity_token] ++
      (GET ∘ page_url a <$> seq 1 (S k)).
Proof.
  intros Hpw Hfresh (Hchallenge & Hlogin & Hpages) Hfull Hend Hnamed.
  destruct (launch_eq srv a (S (S k) + extra) w) as (w1 & Hs & _ & _ & ->).
  destruct (Hchallenge (sent w1)) as (r & Hr1 & Hr2 & Hr3 & Hr4);
    [by rewrite Hs|].
  destruct (Hlogin (sent w1 ++ [GET (page_url a 1)])) as (r' & Hp1 & Hp2).
  cbn [Nat.add].
  rewrite (exec_enumerate_login srv a (S k + extra) w1 r r' authenticity_token)
    by done.
  set (before := sent w1 ++ [GET (page_url a 1); login_request a authenticity_token]).
  set (w0 := {| fs := fs w1; sent := []; stdout := stdout w1; stderr := stderr w1 |}).
  assert (extend_sent [GET (page_url a 1); login_request a authenticity_token] w1
          = prepend_sent before w0) as ->.
  { unfold extend_sent, prepend_sent, before. simpl. by rewrite app_nil_r. }
  rewrite exec_later.
  rewrite (exec_enumerate_pages (later before srv) a pages k extra 1 [] w0);
    [|apply Hpages; unfold before; set_solver|done
     |intros j ?; apply Hfull; lia|done|done].
  eexists _, _. split; [done|]. split; [by apply media_of_coroutines|].
  simpl. unfold before. by rewrite Hs, <- app_assoc.
Qed.

End Protected.


(** X12. On Windows the file name built from the timestamp and the URL of an
    item contains no colon. *)
Theorem windows_filename_has_no_colon `{Lib} (m : media) :
  platform_system = "Windows" →
  Str.contains ":" (media_filename m) = false.
Proof.
  intros Hwin. unfold media_filename. rewrite Hwin. simpl.
  apply (replace_char_free ":"%char).
Qed.

Section Verbose.

Context `{Lib} (srv : server).




End Verbose.

Section EmptyAlbum.

Context `{Lib} (srv : server) (a : args).

(** X14. When the first page lists no item, the run awaits no download at
    all: after the request for page 1 alone, [async_main] is resumed and the
    run ends with exit status 0. *)
Theorem empty_album_exits_cleanly (pages : nat → list media) (extra : nat)
    (w : world) :
  stub_pages srv a pages 1 → pages 1 = [] →
  ∃ w', Run.launch srv (1 + extra) a w =
          Some (Run.Downloading (Sched.gather_with_concurrency 4 [] w')) ∧
        Run.step srv Run.Main
          (Run.Downloading (Sched.gather_with_concurrency 4 [] w')) =
          Some (Run.Exited 0 w' []) ∧
        sent w' = sent w ++ [GET (page_url a 1)].
Proof.
  intros Hstub Hempty.
  destruct (launch_eq srv a (1 + extra) w) as (w1 & Hs & _ & _ & Heq).
  unfold Run.launch. rewrite Heq.
  rewrite (exec_enumerate_pages srv a pages 0 extra 1 [] w1);
    [|done|done|intros j ?; lia|done|by constructor].
  eexists. split; [done|]. split; [done|]. simpl. by rewrite Hs.
Qed.

End EmptyAlbum.

(** ** The properties on the concrete albums *)

Import Album.

(** A computation that gives a result gives its result. *)
Lemma default_Some {A} (d : A) (o : option A) :
  match o with Some _ => true | None => false end = true →
  o = Some (default d o).
Proof. by destruct o. Qed.

Lemma download_media_skips_existing_witness :
  exec healthy
    (download_media (H := lib) (download_url cli a)
       "out/2021-05-01T10:00:00+09:00-a.jpg" a true)
    (with_files [("out/2021-05-01T10:00:00+09:00-a.jpg", "JPEG")]) =
  (Returned (),
   add_stdout "a already downloaded ✔️"
     (with_files [("out/2021-05-01T10:00:00+09:00-a.jpg", "JPEG")])).
Proof.
  apply (download_media_skips_existing (H := lib) healthy (download_url cli a)
           "out/2021-05-01T10:00:00+09:00-a.jpg" a true
           (with_files [("out/2021-05-01T10:00:00+09:00-a.jpg", "JPEG")])).
  exists "JPEG". vm_compute. reflexivity.
Defined.

Lemma stale_comment_file_is_neither_absent_nor_complete :
  fs (interrupted healthy 1 (save_comments (H := lib) "out/x.jpg" [hi])
        (with_files [("out/x.md", "old notes")])) !! "out/x.md" =
    Some "old notes" ∧
  ¬ absent_or_complete (H := lib) healthy "out/x.jpg" [hi]
      (with_files [("out/x.md", "old notes")]) 1.
Proof.
  split; [vm_compute; reflexivity|].
  unfold absent_or_complete. vm_compute. intros [Hc|Hc]; discriminate Hc.
Qed.

Lemma durable_writes_witness :
  ∃ w', exec healthy (write_media (download_url cli a) "out/a.jpg")
          Stub.empty_world = (Returned (), w') ∧
        committed "out/a.jpg.tmp" "out/a.jpg" "AAABBB" Stub.empty_world w'.
Proof.
  apply (durable_writes (H := lib) healthy (download_url cli a) "out/a.jpg" [hi]
           Stub.empty_world) with (r := Stub.ok ["AAA"; "BBB"]).
  - vm_compute. reflexivity.
  - split; [vm_compute; lia|reflexivity].
Defined.

Lemma save_comments_writes_rendering_witness :
  ∃ w', exec healthy (save_comments (H := lib) "out/b.jpg" [hi; gone])
          Stub.empty_world = (Returned (), w') ∧
        fs w' !! "out/b.md" =
          Some ("**A**: hi" +:+ String "010"%char (String "010"%char "")).
Proof.
  destruct (proj1 (save_comments_writes_rendering (H := lib) healthy "out/b.jpg"
                     [hi; gone] Stub.empty_world)) as (w' & Hex & Hfs).
  exists w'. split; [exact Hex|exact Hfs].
Defined.

Lemma all_deleted_comments_leave_empty_file_witness :
  ∃ w', exec healthy
          (download_media (H := lib) (download_url cli c) "out/c.jpg" c false)
          Stub.empty_world = (Returned (), w') ∧
        fs w' !! "out/c.md" = Some "".
Proof.
  apply (all_deleted_comments_leave_empty_file (H := lib) healthy
           (download_url cli c) "out/c.jpg" c false Stub.empty_world
           (Stub.ok ["DDD"])).
  - vm_compute. reflexivity.
  - discriminate.
  - repeat constructor.
  - vm_compute. reflexivity.
  - split; [vm_compute; lia|reflexivity].
Defined.

Lemma missing_password_aborts_witness :
  ∃ w', Run.launch (H := lib) locked 1 cli Stub.empty_world =
          Some (Run.Exited 1 w' []) ∧
        sent w' = [GET (page_url cli 1)].
Proof.
  destruct (missing_password_aborts (H := lib) locked cli 0 Stub.empty_world
              Stub.login_page) as (w' & Hrun & Hsent & _).
  - reflexivity.
  - repeat split; vm_compute; reflexivity.
  - exists w'. split; [exact Hrun|exact Hsent].
Defined.

Lemma rejected_login_aborts_witness :
  ∃ w', Run.launch (H := lib) locked 1 secret_cli Stub.empty_world =
          Some (Run.Exited 1 w' []) ∧
        sent w' = [GET (page_url secret_cli 1); login_post secret_cli].
Proof.
  destruct (rejected_login_aborts (H := lib) locked secret_cli 0
              Stub.empty_world Stub.login_page still_login "tok123")
    as (w' & Hrun & Hsent & _).
  - reflexivity.
  - repeat split; vm_compute; reflexivity.
  - vm_compute. reflexivity.
  - vm_compute. reflexivity.
  - vm_compute. reflexivity.
  - exists w'. split; [exact Hrun|exact Hsent].
Defined.

Lemma healthy_stub : stub_pages (H := lib) healthy cli pages 2.
Proof.
  intros i log Hi. assert (i = 1 ∨ i = 2) as [-> | ->] by lia.
  - exists (Stub.page_of "P1"). repeat split; try intros _; vm_compute; reflexivity.
  - exists (Stub.page_of "P2"). repeat split; try intros _; vm_compute; reflexivity.
Defined.

Lemma with_raw_stub : stub_pages (H := lib) with_raw cli raw_pages 1.
Proof.
  intros i log Hi. assert (i = 1) as -> by lia.
  exists (Stub.page_of "R1"). repeat split; try intros _; vm_compute; reflexivity.
Defined.

Lemma long_stub : stub_pages (H := long_lib) long cli long_pages 3.
Proof.
  intros i log Hi. assert (i = 1 ∨ i = 2 ∨ i = 3) as [-> | [-> | ->]] by lia.
  - exists (Stub.page_of "P1"). repeat split; try intros _; vm_compute; reflexivity.
  - exists (Stub.page_of "P3"). repeat split; try intros _; vm_compute; reflexivity.
  - exists (Stub.page_of "P2"). repeat split; try intros _; vm_compute; reflexivity.
Defined.

Lemma enumeration_collects_pages_witness :
  ∃ cs w', exec long (collect (H := long_lib) 3 cli) Stub.empty_world =
             (Returned cs, w') ∧
           c_media <$> cs = [a; b; c] ∧
           sent w' = [GET (page_url cli 1); GET (page_url cli 2);
                      GET (page_url cli 3)].
Proof.
  destruct (enumeration_collects_pages (H := long_lib) long cli long_pages 2 0
              Stub.empty_world) as (cs & w' & Hex & _ & Hmedia & _ & Hsent).
  - exact long_stub.
  - intros i Hi. assert (i = 1 ∨ i = 2) as [-> | ->] by lia; discriminate.
  - reflexivity.
  - repeat constructor; vm_compute; eexists; reflexivity.
  - exists cs, w'. split; [exact Hex|]. split; [exact Hmedia|exact Hsent].
Defined.

Lemma with_raw_serves_two_pages :
  stub_pages (H := lib) with_raw cli raw_pages 2.
Proof.
  intros i log Hi. assert (i = 1 ∨ i = 2) as [-> | ->] by lia.
  - exists (Stub.page_of "R1"). repeat split; try intros _; vm_compute; reflexivity.
  - exists (Stub.page_of "P2"). repeat split; try intros _; vm_compute; reflexivity.
Qed.

Lemma unnamed_item_empties_work_list :
  stub_pages (H := lib) with_raw cli raw_pages 2 ∧
  raw_pages 1 ≠ [] ∧
  raw_pages 2 = [] ∧
  (∃ w', exec with_raw (collect (H := lib) 2 cli) Stub.empty_world =
           (Raised TypeError, w')) ∧
  ¬ collects_pages (H := lib) with_raw cli raw_pages 1 Stub.empty_world.
Proof.
  split; [exact with_raw_serves_two_pages|]. split; [discriminate|].
  split; [reflexivity|]. split; [eexists; reflexivity|].
  intros (fuel & cs & w' & Hex & _). destruct fuel as [|fuel].
  - discriminate Hex.
  - destruct (launch_eq (H := lib) with_raw cli (S fuel) Stub.empty_world)
      as (w1 & _ & _ & _ & Heq).
    rewrite Heq in Hex.
    destruct (exec_enumerate_unnamed (H := lib) with_raw cli raw_pages 0 fuel 1
                [] w1) as (n' & _ & Hraised).
    + intros i log Hi. apply with_raw_serves_two_pages. lia.
    + lia.
    + intros j Hj. assert (j = 1) as -> by lia. discriminate.
    + intros Hnamed. apply Forall_cons in Hnamed as [_ Hnamed].
      apply Forall_cons in Hnamed as [[c0 Hc0] _]. discriminate Hc0.
    + cbn [Nat.add] in Hraised. rewrite Hraised in Hex. discriminate Hex.
Qed.

Lemma unknown_content_type_aborts_witness :
  destination_filename (H := lib) cli raw = inl TypeError ∧
  ∃ w' n, n ≤ 1 ∧
    exec with_raw (collect (H := lib) 1 cli) Stub.empty_world =
      (Raised TypeError, w') ∧
    Run.launch (H := lib) with_raw 1 cli Stub.empty_world =
      Some (Run.Exited 1 w' []) ∧
    sent w' = sent Stub.empty_world ++ (GET ∘ page_url cli <$> seq 1 n).
Proof.
  apply (unknown_content_type_aborts (H := lib) with_raw cli raw_pages 1 0 raw
           Stub.empty_world).
  - vm_compute. reflexivity.
  - vm_compute. reflexivity.
  - exact with_raw_stub.
  - lia.
  - intros i Hi. assert (i = 1) as -> by lia. discriminate.
  - right. left.
Defined.

Lemma failing_run_launched :
  Run.launch (H := lib) failing 2 cli Stub.empty_world = Some failing_run.
Proof. reflexivity. Qed.

Lemma failed_download_abandons_sibling :
  Run.launch (H := lib) failing 2 cli Stub.empty_world = Some failing_run ∧
  ¬ exits_only_settled failing failing_run.
Proof.
  split; [exact failing_run_launched|]. intros Hall.
  assert (∃ w p, Run.steps failing fail_fast_schedule failing_run =
            Some (Run.Exited 1 w [Sched.Done (Some (ClientResponseError 404));
                                  Sched.Running p])) as (w & p & Hrun).
  { eexists _, _. reflexivity. }
  apply Hall in Hrun. apply Forall_cons in Hrun as [_ Hrun].
  apply Forall_cons in Hrun as [Hrun _]. discriminate Hrun.
Qed.

Lemma at_most_n_fetches_active_witness :
  ∃ s,
    Sched.steps busy full_house
      (Sched.gather_with_concurrency 4
         (run_coroutine (H := lib) <$> omap (coroutine_of (H := lib) cli) five)
         Stub.empty_world) = Some s ∧
    Sched.active (Sched.tasks s) = 4 ∧
    Sched.active (Sched.tasks s) ≤ 4 ∧
    Sched.step busy (Sched.Acquire 4) s = None ∧
    ∃ s' s'',
      Sched.step busy (Sched.Resume 0) s = Some s' ∧
      Sched.tasks s' !! 0 = Some (Sched.Done None) ∧
      Sched.active (Sched.tasks s') = 3 ∧
      Sched.step busy (Sched.Acquire 4) s' = Some s'' ∧
      Sched.is_running <$> Sched.tasks s'' = [false; true; true; true; true] ∧
      Sched.active (Sched.tasks s'') = Sched.active (Sched.tasks s).
Proof.
  set (init := Sched.gather_with_concurrency 4 _ _).
  set (last_in := run_coroutine (H := lib)
         {| c_url := download_url cli fifth;
            c_destination_filename := "out/2021-05-01T10:00:00+09:00-e.jpg";
            c_media := fifth; c_verbose := false |}).
  exists (default init (Sched.steps busy full_house init)).
  assert (Sched.steps busy full_house init =
          Some (default init (Sched.steps busy full_house init))) as Hs
    by (apply default_Some; vm_compute; reflexivity).
  split; [exact Hs|]. split; [vm_compute; reflexivity|].
  destruct (proj1 (at_most_n_fetches_active busy) 4
              (run_coroutine (H := lib) <$> omap (coroutine_of (H := lib) cli) five)
              Stub.empty_world full_house _ Hs)
    as (Hbound & _ & Hrefused & Hrefill).
  split; [exact Hbound|].
  split; [apply (Hrefused 4 last_in); [reflexivity|vm_compute; reflexivity]|].
  destruct (Hrefill 0 (Ret ()) None)
    as (s' & Hresume & Htasks & Hactive & Hbacklog);
    [vm_compute; reflexivity|reflexivity|].
  destruct (Hbacklog 4 last_in) as (s'' & Hacquire & Htasks'' & Hactive'');
    [reflexivity|].
  exists s', s''.
  split; [exact Hresume|].
  split; [rewrite Htasks; vm_compute; reflexivity|].
  split; [rewrite Htasks; vm_compute; reflexivity|].
  split; [exact Hacquire|].
  split; [rewrite Htasks'', Htasks; vm_compute; reflexivity|exact Hactive''].
Defined.

Lemma first_failure_ends_run_witness :
  ∃ s, Sched.steps failing
         [Sched.Acquire 0; Sched.Acquire 1; Sched.Resume 0; Sched.Resume 0;
          Sched.Resume 0; Sched.Resume 0]
         (Sched.gather_with_concurrency 4
            (run_coroutine (H := lib) <$> omap (coroutine_of (H := lib) cli) [a; b])
            Stub.empty_world) = Some s ∧
       Sched.failure s = Some (ClientResponseError 404) ∧
       Run.step failing Run.Main (Run.Downloading s) =
         Some (Run.Exited 1 (Sched.now s) (Sched.tasks s)).
Proof.
  set (init := Sched.gather_with_concurrency 4 _ _).
  set (ls := [Sched.Acquire 0; Sched.Acquire 1; Sched.Resume 0; Sched.Resume 0;
              Sched.Resume 0; Sched.Resume 0]).
  exists (default init (Sched.steps failing ls init)).
  assert (Sched.steps failing ls init =
          Some (default init (Sched.steps failing ls init))) as Hs
    by (apply default_Some; vm_compute; reflexivity).
  split; [exact Hs|].
  assert (Sched.failure (default init (Sched.steps failing ls init)) =
          Some (ClientResponseError 404)) as Hfailure
    by (vm_compute; reflexivity).
  split; [exact Hfailure|].
  exact (proj2 (proj1 (proj2 (proj2 (first_failure_ends_run (H := lib) failing 4
            (omap (coroutine_of (H := lib) cli) [a; b]) Stub.empty_world
            ls _ Hs))) (ClientResponseError 404) Hfailure)).
Defined.

(** ** The further properties on the concrete albums *)

Lemma download_media_fetches_witness :
  ∃ w', exec healthy
          (download_media (H := lib) (download_url cli b) "out/b.jpg" b false)
          Stub.empty_world = (Returned (), w') ∧
        sent w' = [download b] ∧
        fs w' !! "out/b.jpg" = Some "CCC" ∧
        fs w' !! "out/b.jpg.tmp" = None ∧
        fs w' !! "out/b.md" =
          Some ("**A**: hi" +:+ String "010"%char (String "010"%char "")) ∧
        fs w' !! "out/b.md.tmp" = None.
Proof.
  destruct (download_media_fetches (H := lib) healthy (download_url cli b)
              "out/b.jpg" b false Stub.empty_world (Stub.ok ["CCC"]))
    as (w' & Hex & Hsent & _ & _ & Hfiles & _).
  - reflexivity.
  - reflexivity.
  - split; [vm_compute; lia|reflexivity].
  - destruct Hfiles as (Hmedia & Htmp & Hmd & Hmdtmp & _); try discriminate.
    exists w'. split; [exact Hex|]. split; [exact Hsent|].
    split; [exact Hmedia|]. split; [exact Htmp|].
    split; [exact Hmd|exact Hmdtmp].
Defined.

Lemma failed_download_leaves_only_tmp_witness :
  ∃ w', exec failing
          (download_media (H := lib) (download_url cli a) "out/a.jpg" a false)
          Stub.empty_world = (Raised (ClientResponseError 404), w') ∧
        fs w' !! "out/a.jpg" = None.
Proof.
  destruct (failed_download_leaves_only_tmp (H := lib) failing (download_url cli a)
              "out/a.jpg" a false Stub.empty_world (ClientResponseError 404))
    as (w' & Hex & _ & _ & Hfs).
  - vm_compute. reflexivity.
  - vm_compute. reflexivity.
  - exists w'. split; [exact Hex|exact Hfs].
Defined.

Lemma download_media_again_is_skipped_witness :
  ∃ w1, exec healthy
          (download_media (H := lib) (download_url cli a) "out/a.jpg" a false)
          Stub.empty_world = (Returned (), w1) ∧
        exec healthy
          (download_media (H := lib) (download_url cli a) "out/a.jpg" a false)
          w1 = (Returned (), w1).
Proof.
  apply (download_media_again_is_skipped (H := lib) healthy (download_url cli a)
           (download_url cli a) "out/a.jpg" a a false false Stub.empty_world
           (Stub.ok ["AAA"; "BBB"])).
  - vm_compute. reflexivity.
  - vm_compute. reflexivity.
  - split; [vm_compute; lia|reflexivity].
  - vm_compute. discriminate.
Defined.

Lemma startup_sweeps_tmp_files_witness :
  ∃ w', exec healthy (startup (H := lib) cli) leftovers = (Returned (), w') ∧
        fs w' !! "out/a.jpg.tmp" = None ∧
        fs w' !! "out/b.jpg" = Some "CCC" ∧
        fs w' !! "out/.c.tmp" = Some "x".
Proof.
  destruct (startup_sweeps_tmp_files (H := lib) healthy cli leftovers)
    as (w' & Hex & _ & _ & _ & Hswept & Hkept & _).
  - discriminate.
  - reflexivity.
  - reflexivity.
  - reflexivity.
  - exists w'. split; [exact Hex|].
    split; [exact (Hswept "a.jpg.tmp" eq_refl eq_refl eq_refl)|].
    split.
    + transitivity (fs leftovers !! "out/b.jpg");
        [exact (Hkept "b.jpg" (or_introl eq_refl))|vm_compute; reflexivity].
    + transitivity (fs leftovers !! "out/.c.tmp");
        [exact (Hkept ".c.tmp" (or_intror eq_refl))|vm_compute; reflexivity].
Defined.


Lemma finished_stays_finished_witness :
  ∃ s', Sched.steps healthy [Sched.Resume 1] half_done = Some s' ∧
        Sched.tasks s' !! 0 = Some (Sched.Done None).
Proof.
  eexists. split; [vm_compute; reflexivity|].
  eapply (finished_stays_finished healthy [Sched.Resume 1] half_done _ 0 None).
  - vm_compute. reflexivity.
  - reflexivity.
Defined.

Lemma zero_permits_hang_witness :
  @nil Run.label = [] ∧
  Run.Downloading (Sched.gather_with_concurrency 0 [Ret ()] Stub.empty_world) =
  Run.Downloading (Sched.gather_with_concurrency 0 [Ret ()] Stub.empty_world).
Proof.
  apply (zero_permits_hang healthy [Ret ()] Stub.empty_world []).
  - discriminate.
  - reflexivity.
Defined.

Lemma missing_token_aborts_witness :
  ∃ w', Run.launch (H := lib) no_token 1 secret_cli Stub.empty_world =
          Some (Run.Exited 1 w' []) ∧
        sent w' = [GET (page_url secret_cli 1)].
Proof.
  destruct (missing_token_aborts (H := lib) no_token secret_cli 0
              Stub.empty_world
              (Stub.ok ["<form>" +:+ challenge_marker +:+ "</form>"]))
    as (w' & _ & Hrun & Hsent).
  - reflexivity.
  - repeat split; vm_compute; reflexivity.
  - vm_compute. reflexivity.
  - exists w'. split; [exact Hrun|exact Hsent].
Defined.

Lemma unreadable_page_aborts_witness :
  ∃ w', Run.launch (H := lib) not_an_album 1 cli Stub.empty_world =
          Some (Run.Exited 1 w' []) ∧
        sent w' = [GET (page_url cli 1)].
Proof.
  destruct (unreadable_page_aborts (H := lib) not_an_album cli 0
              Stub.empty_world (Stub.ok ["<html>maintenance</html>"]) IndexError)
    as (_ & _ & w' & _ & Hrun & Hsent).
  - vm_compute. reflexivity.
  - reflexivity.
  - vm_compute. reflexivity.
  - vm_compute. reflexivity.
  - exists w'. split; [exact Hrun|exact Hsent].
Defined.

Lemma looping_keeps_challenging :
  keeps_challenging looping secret_cli "tok123".
Proof.
  intros log. split.
  - exists Stub.login_page. repeat split; vm_compute; reflexivity.
  - exists accepted. split; vm_compute; reflexivity.
Defined.

Lemma login_loop_never_ends_witness :
  exec looping (enumerate (H := lib) 3 secret_cli 1 []) Stub.empty_world =
  (Unfinished,
   extend_sent
     (mjoin (replicate 3
               [GET (page_url secret_cli 1); login_request secret_cli "tok123"]))
     Stub.empty_world).
Proof.
  apply (login_loop_never_ends (H := lib) looping secret_cli "tok123" 3 []
           Stub.empty_world).
  - reflexivity.
  - exact looping_keeps_challenging.
Defined.

Lemma protected_is_protected :
  protected_album (H := lib) protected secret_cli "tok123" pages 2.
Proof.
  split; [|split].
  - intros log Hlog. exists Stub.login_page. unfold protected.
    rewrite bool_decide_eq_false_2 by exact Hlog.
    repeat split; vm_compute; reflexivity.
  - intros log. exists accepted. unfold protected.
    destruct (bool_decide (login_post secret_cli ∈ log));
      split; vm_compute; reflexivity.
  - intros log Hlog i log' Hi. unfold later, protected.
    rewrite bool_decide_eq_true_2 by (apply elem_of_app; left; exact Hlog).
    assert (i = 1 ∨ i = 2) as [-> | ->] by lia.
    + exists (Stub.page_of "P1"). repeat split; try intros _; vm_compute; reflexivity.
    + exists (Stub.page_of "P2"). repeat split; try intros _; vm_compute; reflexivity.
Defined.

Lemma accepted_login_enumerates_witness :
  ∃ cs w',
    exec protected (collect (H := lib) 3 secret_cli) Stub.empty_world =
      (Returned cs, w') ∧
    c_media <$> cs = [a; b] ∧
    sent w' = [GET (page_url secret_cli 1); login_request secret_cli "tok123";
               GET (page_url secret_cli 1); GET (page_url secret_cli 2)].
Proof.
  apply (accepted_login_enumerates (H := lib) protected secret_cli "tok123"
           pages 1 0 Stub.empty_world).
  - reflexivity.
  - apply not_elem_of_nil.
  - exact protected_is_protected.
  - intros i Hi. assert (i = 1) as -> by lia. discriminate.
  - reflexivity.
  - repeat constructor; vm_compute; eexists; reflexivity.
Defined.

Lemma windows_filename_has_no_colon_witness :
  Str.contains ":" (media_filename (H := windows_lib) a) = false.
Proof.
  apply (windows_filename_has_no_colon (H := windows_lib) a). reflexivity.
Defined.

Lemma empty_is_stub : stub_pages (H := lib) empty cli no_pages 1.
Proof.
  intros i log Hi. assert (i = 1) as -> by lia.
  exists (Stub.page_of "P2"). repeat split; try intros _; vm_compute; reflexivity.
Defined.

Lemma empty_album_exits_cleanly_witness :
  ∃ w', Run.launch (H := lib) empty 1 cli Stub.empty_world =
          Some (Run.Downloading (Sched.gather_with_concurrency 4 [] w')) ∧
        Run.step empty Run.Main
          (Run.Downloading (Sched.gather_with_concurrency 4 [] w')) =
          Some (Run.Exited 0 w' []) ∧
        sent w' = sent Stub.empty_world ++ [GET (page_url cli 1)].
Proof.
  apply (empty_album_exits_cleanly (H := lib) empty cli no_pages 0
           Stub.empty_world).
  - exact empty_is_stub.
  - reflexivity.
Defined.
